(** * ClamAV connection pool and stream-scan orchestration (server.js)

    A shallow embedding of the scanning core of [server.js]:
    - [Js]: the JavaScript values the daemon response is made of, with the
      operators the code applies to them ([&&], [||], [===], [includes],
      [match], [trim]);
    - [Interp]: the part of the [scanStream] callback that turns the raw
      daemon response into the scan result;
    - [Pool]: [ClamAVConnectionPool] ([acquire], [release],
      [removeConnection], [_createConnection]) and the [scanStream] callback
      of [scanWithStream], as transitions of the pool state;
    - [Retry]: [scanFile], the retry wrapper;
    - [Server]: the feature flag, the warm-up [initClamScan], the health
      route and the upload route around [scanFile].

    JavaScript runs each callback to completion, so every method body is one
    atomic transition; what is asynchronous in the source (the creation of a
    connection, the daemon's answer) is a separate event of the model. *)

From stdpp Require Import gmap strings list.
From Equations Require Import Equations.
From Stdlib Require Import ZArith Lia.



(* ===================================================================== *)
(** ** JavaScript values *)
(* ===================================================================== *)

Module Js.

(** The values a field of the daemon response can hold. Numbers are the
    integer-valued ones; strings are sequences of code units below 256. *)
#[warnings="-register-all"]
Inductive jsval : Type :=
| JUndefined
| JNull
| JBool (b : bool)
| JNum (n : Z)
| JStr (s : string)
| JArr (l : list jsval).

(** ToBoolean. *)
Definition truthy (v : jsval) : bool :=
  match v with
  | JUndefined | JNull => false
  | JBool b => b
  | JNum n => negb (n =? 0)%Z
  | JStr s => negb (String.eqb s "")
  | JArr _ => true
  end.

(** [a && b] and [a || b] return one of their operands. *)
Definition js_and (a b : jsval) : jsval := if truthy a then b else a.
Definition js_or (a b : jsval) : jsval := if truthy a then a else b.

(** [v === true], [v === 'lit'], [v === n]. *)
Definition is_true (v : jsval) : bool :=
  match v with JBool true => true | _ => false end.
Definition is_str (lit : string) (v : jsval) : bool :=
  match v with JStr s => String.eqb s lit | _ => false end.
Definition is_num (n : Z) (v : jsval) : bool :=
  match v with JNum k => (k =? n)%Z | _ => false end.

(** [Array.isArray(v)] and [typeof v === 'string']. *)
Definition isArray (v : jsval) : bool :=
  match v with JArr _ => true | _ => false end.
Definition isString (v : jsval) : bool :=
  match v with JStr _ => true | _ => false end.

(** [v.length > 0]; [length] is [undefined] on booleans and numbers, and
    [undefined > 0] is false. *)
Definition length_gt0 (v : jsval) : bool :=
  match v with
  | JStr s => negb (String.eqb s "")
  | JArr l => negb (Nat.eqb (length l) 0)
  | _ => false
  end.

Definition elems (v : jsval) : list jsval :=
  match v with JArr l => l | _ => [] end.

(** *** Strings *)

Fixpoint startsWith (p s : string) : bool :=
  match p, s with
  | EmptyString, _ => true
  | String a p', String b s' => Ascii.eqb a b && startsWith p' s'
  | String _ _, EmptyString => false
  end.

(** [s.includes(p)]. *)
Fixpoint includes (p s : string) : bool :=
  startsWith p s ||
  match s with
  | EmptyString => false
  | String _ s' => includes p s'
  end.

Definition code (c : Ascii.ascii) : N := Ascii.N_of_ascii c.

(** WhiteSpace and LineTerminator code units below 256: TAB, LF, VT, FF,
    CR, SP, NBSP. This is the class [\s] and what [trim] strips. *)
Definition is_space (c : Ascii.ascii) : bool :=
  let n := code c in
  ((9 <=? n) && (n <=? 13) || (n =? 32) || (n =? 160))%N.

(** LineTerminator: what [.] refuses. *)
Definition is_line_terminator (c : Ascii.ascii) : bool :=
  let n := code c in ((n =? 10) || (n =? 13))%N.

(** Canonicalize of a case-insensitive match without the [u] flag: the
    upper-case letter of [a]..[z]; a code unit of 128 or more is never
    mapped below 128. *)
Definition canonicalize (c : Ascii.ascii) : Ascii.ascii :=
  let n := code c in
  if ((97 <=? n) && (n <=? 122))%N then Ascii.ascii_of_N (n - 32) else c.

(** A literal of upper-case ASCII matched case-insensitively at the head of
    [s]; the rest of [s] on success. *)
Fixpoint match_literal_i (lit s : string) : option string :=
  match lit, s with
  | EmptyString, _ => Some s
  | String a lit', String b s' =>
      if Ascii.eqb a (canonicalize b) then match_literal_i lit' s' else None
  | String _ _, EmptyString => None
  end.

(** [(.+)] at the end of the pattern: greedy, so the longest run of
    characters that are not line terminators; it fails on an empty run. *)
Fixpoint dot_run (s : string) : string :=
  match s with
  | String c s' => if is_line_terminator c then "" else String c (dot_run s')
  | EmptyString => ""
  end.

Definition dot_plus (s : string) : option string :=
  match dot_run s with
  | EmptyString => None
  | g => Some g
  end.

(** [\s*(.+)]: [\s*] is greedy, it first tries to take one more space and
    gives it back when the rest of the pattern fails after it. *)
Fixpoint spaces_then_capture (s : string) : option string :=
  match s with
  | String c s' =>
      if is_space c then
        match spaces_then_capture s' with
        | Some g => Some g
        | None => dot_plus s
        end
      else dot_plus s
  | EmptyString => dot_plus s
  end.

(** The pattern anchored at the head of [s]. *)
Definition match_here (s : string) : option string :=
  match match_literal_i "FOUND:" s with
  | Some rest => spaces_then_capture rest
  | None => None
  end.

(** [s.match(/FOUND:\s*(.+)/i)]: the leftmost position where the pattern
    matches; the result is capture group 1, [None] is [null]. *)
Fixpoint match_FOUND (s : string) : option string :=
  match match_here s with
  | Some g => Some g
  | None =>
      match s with
      | String _ s' => match_FOUND s'
      | EmptyString => None
      end
  end.

Fixpoint trimStart (s : string) : string :=
  match s with
  | String c s' => if is_space c then trimStart s' else s
  | EmptyString => ""
  end.

(** [trimEnd]: a space is dropped when nothing but spaces follows it. *)
Fixpoint trimEnd (s : string) : string :=
  match s with
  | String c s' =>
      match trimEnd s' with
      | EmptyString => if is_space c then "" else String c ""
      | t => String c t
      end
  | EmptyString => ""
  end.

Definition trim (s : string) : string := trimEnd (trimStart s).

(** [s.slice(n)]. *)
Fixpoint slice (n : nat) (s : string) : string :=
  match n, s with
  | 0, _ => s
  | S n', String _ s' => slice n' s'
  | S _, EmptyString => EmptyString
  end.

End Js.

Import Js.

(* ===================================================================== *)
(** ** Interpretation of the daemon response (scanStream callback) *)
(* ===================================================================== *)

Module Interp.

(** The fields of the callback's [object] that the code reads: [viruses],
    [virus], [isInfected], [infected] and [file] carry the prefix [r_];
    a field that is absent reads as [JUndefined]. *)
Record response : Type := mkResponse {
  resultString : jsval;
  r_viruses : jsval;
  r_virus : jsval;
  r_isInfected : jsval;
  r_infected : jsval;
  r_file : jsval
}.

(** What [scanWithStream] resolves with. The three durations are clock
    readings that no branch depends on; they are left out. [needsFallback]
    is [true] when the property is set and [false] when it is absent. *)
Record ScanResult : Type := mkScanResult {
  isInfected : jsval;
  viruses : list jsval;
  method : string;
  rawResult : response;
  needsFallback : bool
}.

Definition hasViruses (object : response) : jsval :=
  js_or
    (js_and (js_and (r_viruses object) (JBool (isArray (r_viruses object))))
            (JBool (length_gt0 (r_viruses object))))
    (js_and (r_virus object) (JBool (length_gt0 (r_virus object)))).

Definition isInfectedFlag (object : response) : bool :=
  is_true (r_isInfected object) ||
  is_str "true" (r_isInfected object) ||
  is_num 1 (r_isInfected object) ||
  is_true (r_infected object).

(** [object.file.includes('FOUND') || object.file.includes('Infected')],
    read only once [object.file] is known to be a string. *)
Definition file_has_token (v : jsval) : bool :=
  match v with
  | JStr s => includes "FOUND" s || includes "Infected" s
  | _ => false
  end.

Definition hasVirusInName (object : response) : jsval :=
  js_and (js_and (r_file object) (JBool (isString (r_file object))))
         (JBool (file_has_token (r_file object))).

Definition infection (object : response) : jsval :=
  js_or (js_or (JBool (isInfectedFlag object)) (hasViruses object))
        (hasVirusInName object).

(** The [if / else if / else if] chain that fills [viruses]. *)
Definition extract_viruses (object : response) : list jsval :=
  if truthy (js_and (r_viruses object) (JBool (isArray (r_viruses object))))
  then elems (r_viruses object)
  else if truthy (r_virus object)
  then (if isArray (r_virus object) then elems (r_virus object)
        else [r_virus object])
  else if truthy (js_and (hasVirusInName object) (r_file object))
  then match r_file object with
       | JStr s =>
           match match_FOUND s with
           | Some g => [JStr (trim g)]
           | None => []
           end
       | _ => []
       end
  else [].

Definition threat_detected : jsval := JStr "Threat detected".

(** [if (isInfected && viruses.length === 0) viruses.push(...)]. *)
Definition final_viruses (object : response) : list jsval :=
  let vs := extract_viruses object in
  if truthy (infection object) && Nat.eqb (length vs) 0
  then vs ++ [threat_detected] else vs.

(** When [viruses] is [object.viruses] itself, the [push] is seen through
    [rawResult] as well. *)
Definition raw_after (object : response) : response :=
  if truthy (js_and (r_viruses object) (JBool (isArray (r_viruses object))))
  then mkResponse (resultString object) (JArr (final_viruses object))
         (r_virus object) (r_isInfected object) (r_infected object)
         (r_file object)
  else object.

(** The callback after the error check. [None] as argument is an [object]
    that is [null] or [undefined]; [None] as result is the [TypeError] that
    reading [object.viruses] throws then, inside the callback, so that the
    promise is never settled. The local variables [isInfected] and
    [viruses] of the source are [infection] and [final_viruses] here, their
    names being those of the fields of the result. *)
Definition interpret (object : option response) : option ScanResult :=
  match object with
  | None => None
  | Some o =>
      if is_str "UNKNOWN COMMAND" (resultString o) then
        Some {| isInfected := JBool false;
                viruses := [];
                method := "clamdscan (stream - failed)";
                rawResult := o;
                needsFallback := true |}
      else
        Some {| isInfected := infection o;
                viruses := final_viruses o;
                method := "clamdscan (stream)";
                rawResult := raw_after o;
                needsFallback := false |}
  end.

End Interp.

Import Interp.

(* ===================================================================== *)
(** ** Errors and promises *)
(* ===================================================================== *)

(** An [Error] object, as the map of its properties. *)
Abbreviation Error := (gmap string jsval).

(** [new Error(msg)]. *)
Definition new_Error (msg : string) : Error := {[ "message" := JStr msg ]}.

(** [error.code]; a missing property reads as [undefined]. *)
Definition err_code (e : Error) : jsval := default JUndefined (e !! "code").

(** [err.code === 'EPIPE' || err.code === 'ECONNRESET']. *)
Definition is_connection_error (e : Error) : bool :=
  is_str "EPIPE" (err_code e) || is_str "ECONNRESET" (err_code e).

(** How a promise settles. *)
Inductive settled (A : Type) : Type :=
| Fulfilled (a : A)
| Rejected (e : Error).
Arguments Fulfilled {A} a.
Arguments Rejected {A} e.

(* ===================================================================== *)
(** ** ClamAVConnectionPool *)
(* ===================================================================== *)

Module Pool.

(** A connection is the identity of a [NodeClam] session object; a waiter
    is the identity of one [acquire()] promise, that is of its
    [{ resolve, reject }] pair. *)
Definition conn := nat.
Definition waiter := nat.

Record ClamAVConnectionPool : Type := mkPool {
  pool : list conn;
  inUse : gset conn;
  maxConnections : nat;
  queue : list waiter;
  maxQueueSize : nat;
  initialized : bool
}.

(** [constructor(maxConnections = 5, maxQueueSize = 20)]. *)
Definition new_pool (maxConnections maxQueueSize : nat) : ClamAVConnectionPool :=
  mkPool [] ∅ maxConnections [] maxQueueSize false.

(** [const connectionPool = new ClamAVConnectionPool(5, 20)]. *)
Definition connectionPool : ClamAVConnectionPool := new_pool 5 20.

Definition set_inUse (s : gset conn) (p : ClamAVConnectionPool) :=
  mkPool (pool p) s (maxConnections p) (queue p) (maxQueueSize p) (initialized p).
Definition set_pool (l : list conn) (p : ClamAVConnectionPool) :=
  mkPool l (inUse p) (maxConnections p) (queue p) (maxQueueSize p) (initialized p).
Definition set_queue (q : list waiter) (p : ClamAVConnectionPool) :=
  mkPool (pool p) (inUse p) (maxConnections p) q (maxQueueSize p) (initialized p).
Definition set_initialized (b : bool) (p : ClamAVConnectionPool) :=
  mkPool (pool p) (inUse p) (maxConnections p) (queue p) (maxQueueSize p) b.

(** What a method does to the promises of the callers. *)
Inductive effect : Type :=
| Resolve (w : waiter) (c : conn)
| Reject (w : waiter) (e : Error)
| Create (w : waiter).

(** *** _createConnection *)

Definition maxRetries : nat := 10.
Definition delay : Z := 3000.

(** What the loop does, in order: a call of [new NodeClam().init(...)] at
    loop index [attempt], or a [setTimeout] of [ms] milliseconds. *)
Inductive io : Type :=
| Establish (attempt : nat)
| Sleep (ms : Z).

(** How the function ends: [return clamscan], [throw error], or the end of
    the [for] loop without either. *)
Inductive created : Type :=
| Returned (c : conn)
| Threw (e : Error)
| FellThrough.

(** The [for] loop from index [attempt] on. [init] gives the outcome of the
    [init] call made at each loop index. *)
Equations? createLoop (init : nat → settled conn) (attempt : nat)
  : created * list io by wf (S maxRetries - attempt) lt :=
  createLoop init attempt with decide (attempt ≤ maxRetries) => {
    | right _ => (FellThrough, [])
    | left _ with init attempt => {
        | Fulfilled clamscan => (Returned clamscan, [Establish attempt])
        | Rejected error with decide (attempt < maxRetries) => {
            | left _ =>
                let waitTime := (delay * Z.of_nat attempt)%Z in
                let rest := createLoop init (S attempt) in
                (rest.1, Establish attempt :: Sleep waitTime :: rest.2)
            | right _ => (Threw error, [Establish attempt]) } } }.
Proof. lia. Qed.

Definition _createConnection (init : nat → settled conn) : created * list io :=
  createLoop init 1.

(** *** acquire, release, removeConnection, isReady *)

Definition queue_full_message : string :=
  "Connection pool queue is full. Too many concurrent scan requests.".

(** The synchronous body of [acquire()], run for the caller [w]. [Create w]
    stands for the call of [_createConnection()] whose [then] and [catch]
    run later, in [created_then] and [created_catch]. *)
Definition acquire (w : waiter) (p : ClamAVConnectionPool)
  : ClamAVConnectionPool * list effect :=
  match List.find (λ c, negb (bool_decide (c ∈ inUse p))) (pool p) with
  | Some c => (set_inUse ({[c]} ∪ inUse p) p, [Resolve w c])
  | None =>
      if bool_decide (length (pool p) < maxConnections p) then
        (p, [Create w])
      else if bool_decide (maxQueueSize p ≤ length (queue p)) then
        (p, [Reject w (new_Error queue_full_message)])
      else
        (set_queue (queue p ++ [w]) p, [])
  end.

(** [_createConnection()] returns [c] for the caller [w]: the flag is set,
    then the [then] callback of [acquire] runs. *)
Definition created_then (w : waiter) (c : conn) (p : ClamAVConnectionPool)
  : ClamAVConnectionPool * list effect :=
  let p := set_initialized true p in
  let p := set_pool (pool p ++ [c]) p in
  let p := set_inUse ({[c]} ∪ inUse p) p in
  (p, [Resolve w c]).

(** [_createConnection()] throws: [.catch(reject)]. *)
Definition created_catch (w : waiter) (e : Error) (p : ClamAVConnectionPool)
  : ClamAVConnectionPool * list effect :=
  (p, [Reject w e]).

Definition release (c : conn) (p : ClamAVConnectionPool)
  : ClamAVConnectionPool * list effect :=
  let p := set_inUse (inUse p ∖ {[c]}) p in
  match queue p with
  | w :: rest =>
      let p := set_queue rest p in
      let p := set_inUse ({[c]} ∪ inUse p) p in
      (p, [Resolve w c])
  | [] => (p, [])
  end.

(** [pool.splice(pool.indexOf(conn), 1)] when [conn] is found. *)
Fixpoint remove_first (c : conn) (l : list conn) : list conn :=
  match l with
  | [] => []
  | x :: l' => if decide (x = c) then l' else x :: remove_first c l'
  end.

Definition removeConnection (c : conn) (p : ClamAVConnectionPool)
  : ClamAVConnectionPool :=
  let p := set_inUse (inUse p ∖ {[c]}) p in
  set_pool (remove_first c (pool p)) p.

Definition isReady (p : ClamAVConnectionPool) : bool :=
  initialized p || negb (Nat.eqb (length (pool p)) 0).

(** Several acquire() calls in a row, then several releases in a row. *)
Fixpoint acquire_all (ws : list waiter) (p : ClamAVConnectionPool)
  : ClamAVConnectionPool * list effect :=
  match ws with
  | [] => (p, [])
  | w :: ws' =>
      let r := acquire w p in
      let r' := acquire_all ws' r.1 in
      (r'.1, r.2 ++ r'.2)
  end.

Fixpoint release_all (cs : list conn) (p : ClamAVConnectionPool)
  : ClamAVConnectionPool * list effect :=
  match cs with
  | [] => (p, [])
  | c :: cs' =>
      let r := release c p in
      let r' := release_all cs' r.1 in
      (r'.1, r.2 ++ r'.2)
  end.

(** *** The scanStream callback of scanWithStream

    [conn] is the connection the scan ran on. The pool part of the callback
    comes first: [release], then [removeConnection] on a connection error.
    The last component is how the promise of [scanWithStream] settles;
    [None] when the callback throws before settling it. *)
Definition scanStream_callback (c : conn) (err : option Error)
  (object : option response) (p : ClamAVConnectionPool)
  : ClamAVConnectionPool * list effect * option (settled ScanResult) :=
  let r := release c p in
  match err with
  | Some e =>
      let p' := if is_connection_error e then removeConnection c r.1 else r.1 in
      (p', r.2, Some (Rejected e))
  | None => (r.1, r.2, Fulfilled <$> interpret object)
  end.

(** *** Runs of the pool

    The calls and completions that reach the pool, in the order the event
    loop runs them. *)
Inductive event : Type :=
| Acquire (w : waiter)
| Created (w : waiter) (c : conn)
| CreateFailed (w : waiter) (e : Error)
| Release (c : conn)
| Remove (c : conn).

(** The pool together with the callers whose [_createConnection()] has not
    settled yet. *)
Record System : Type := mkSystem {
  state : ClamAVConnectionPool;
  creating : list waiter
}.

Definition started (effs : list effect) : list waiter :=
  omap (λ e, match e with Create w => Some w | _ => None end) effs.

Fixpoint drop_first (w : waiter) (l : list waiter) : list waiter :=
  match l with
  | [] => []
  | x :: l' => if decide (x = w) then l' else x :: drop_first w l'
  end.

(** One event. [None]: the event cannot happen in this state (a creation
    settles that was never started, or a session that is not new). *)
Definition step (s : System) (ev : event) : option (System * list effect) :=
  match ev with
  | Acquire w =>
      let r := acquire w (state s) in
      Some (mkSystem r.1 (creating s ++ started r.2), r.2)
  | Created w c =>
      if bool_decide (w ∈ creating s) && negb (bool_decide (c ∈ pool (state s)))
      then let r := created_then w c (state s) in
           Some (mkSystem r.1 (drop_first w (creating s)), r.2)
      else None
  | CreateFailed w e =>
      if bool_decide (w ∈ creating s)
      then let r := created_catch w e (state s) in
           Some (mkSystem r.1 (drop_first w (creating s)), r.2)
      else None
  | Release c =>
      let r := release c (state s) in Some (mkSystem r.1 (creating s), r.2)
  | Remove c =>
      Some (mkSystem (removeConnection c (state s)) (creating s), [])
  end.

Fixpoint run (s : System) (evs : list event) : option (System * list effect) :=
  match evs with
  | [] => Some (s, [])
  | ev :: evs' =>
      match step s ev with
      | Some (s', effs) =>
          match run s' evs' with
          | Some (s'', effs') => Some (s'', effs ++ effs')
          | None => None
          end
      | None => None
      end
  end.

End Pool.

(* ===================================================================== *)
(** ** scanFile: the retry wrapper *)
(* ===================================================================== *)

Module Retry.

Definition maxRetries : nat := 2.

(** [{ ...result, fileSize: fileSize }]. *)
Record FileResult : Type := mkFileResult {
  result : ScanResult;
  fileSize : Z
}.

Definition unknown_command_message : string :=
  "Stream scanning returned UNKNOWN COMMAND - ClamAV stream scanning may not be supported".

(** The body of [try]: the [await] of [scanWithStream], the check of
    [needsFallback] (its [throw] lands in the [catch] like any rejection),
    and the value returned. *)
Definition try_scan (outcome : settled ScanResult) (size : Z)
  : settled FileResult :=
  match outcome with
  | Fulfilled r =>
      if needsFallback r ||
         is_str "UNKNOWN COMMAND" (resultString (rawResult r))
      then Rejected (new_Error unknown_command_message)
      else Fulfilled (mkFileResult r size)
  | Rejected e => Rejected e
  end.

(** What [scanFile] does, in order: a call of [scanWithStream] at a given
    [retryCount], or a [setTimeout] of [ms] milliseconds. *)
Inductive io : Type :=
| Scan (retryCount : nat)
| Sleep (ms : Z).

(** [scanWithStream] gives how the call made at each [retryCount]
    settles. *)
Equations? scanFile (scanWithStream : nat → settled ScanResult) (size : Z)
  (retryCount : nat) : settled FileResult * list io
  by wf (maxRetries - retryCount) lt :=
  scanFile scanWithStream size retryCount
    with try_scan (scanWithStream retryCount) size => {
    | Fulfilled r => (Fulfilled r, [Scan retryCount])
    | Rejected error
        with decide (is_connection_error error = true ∧ retryCount < maxRetries) => {
        | left _ =>
            let ms := (1000 * (Z.of_nat retryCount + 1))%Z in
            let rest := scanFile scanWithStream size (S retryCount) in
            (rest.1, Scan retryCount :: Sleep ms :: rest.2)
        | right _ => (Rejected error, [Scan retryCount]) } }.
Proof. unfold maxRetries in *. lia. Qed.

(** The number of calls of [scanWithStream] in a run. *)
Definition is_scan (x : io) : bool :=
  match x with Scan _ => true | Sleep _ => false end.
Definition attempts (t : list io) : nat := length (List.filter is_scan t).

End Retry.

(* ===================================================================== *)
(** ** The server around the scan: configuration, warm-up, upload route *)
(* ===================================================================== *)

Module Server.

Import Pool.

(** [String.prototype.toLowerCase] on one code unit below 256: the letters
    [A]..[Z], and the Latin-1 capitals U+00C0..U+00DE but the multiplication
    sign U+00D7, move up by 32. *)
Definition lower_unit (c : Ascii.ascii) : Ascii.ascii :=
  let n := code c in
  if ((65 <=? n) && (n <=? 90))%N then Ascii.ascii_of_N (n + 32)
  else if ((192 <=? n) && (n <=? 222) && negb (n =? 215))%N
  then Ascii.ascii_of_N (n + 32)
  else c.

Fixpoint toLowerCase (s : string) : string :=
  match s with
  | EmptyString => EmptyString
  | String c s' => String (lower_unit c) (toLowerCase s')
  end.

(** The feature flag, from [process.env.ENABLE_VIRUS_SCAN]; [None] is a
    variable that is not set. *)
Definition ENABLE_VIRUS_SCAN (env : option string) : bool :=
  match env with
  | Some v =>
      if truthy (JStr v) then negb (String.eqb (toLowerCase v) "false")
      else true
  | None => true
  end.

(** [initClamScan]: the session of a successful [_createConnection()] is
    pushed on the collection, not marked in use; a failure is caught and
    logged. The promise is fulfilled in both cases. The loop never falls
    through, so nothing stands for the push of [undefined] there. *)
Definition initClamScan (init : nat → settled conn) (p : ClamAVConnectionPool)
  : ClamAVConnectionPool * settled unit :=
  match (_createConnection init).1 with
  | Returned c =>
      (set_pool (pool p ++ [c]) (set_initialized true p), Fulfilled tt)
  | Threw _ => (p, Fulfilled tt)
  | FellThrough => (p, Fulfilled tt)
  end.

(** The body of [GET /health]. *)
Record health : Type := mkHealth {
  clamavReady : bool;
  poolSize : nat;
  connectionsInUse : nat;
  queueLength : nat
}.

Definition get_health (p : ClamAVConnectionPool) : health :=
  mkHealth (isReady p) (length (pool p)) (size (inUse p)) (length (queue p)).

(** [req.file] of the upload route: [req.file.size] and
    [req.file.buffer.length]. *)
Record uploaded : Type := mkUploaded {
  file_size : Z;
  buffer_length : Z
}.

Definition MAX_FILE_SIZE_FOR_SCAN : Z := 2147483647.

(** The JSON body of an answer of [POST /upload], with its status. The
    request id, the hints, the durations and the formatted sizes and
    durations are left out; a field that the code does not set is [None]. *)
Record answer : Type := mkAnswer {
  status : Z;
  success : bool;
  message : string;
  error : option jsval;
  errorCode : option jsval;
  stage : option string;
  infected : option jsval;
  body_viruses : option (list jsval);
  scanEnabled : option bool;
  scanMethod : option string;
  body_fileSize : option Z
}.

(** What the route does with a request whose timeout has not fired:
    it answers, or it throws inside its [catch] block and sends nothing. *)
Inductive outcome : Type :=
| Answered (a : answer)
| Unanswered.

(** [error.message]. *)
Definition err_message (e : Error) : jsval :=
  default JUndefined (e !! "message").

(** [error.message.includes('timeout')]: of a string, of an array; [None]
    is the [TypeError] on any other value. *)
Definition message_includes_timeout (m : jsval) : option bool :=
  match m with
  | JStr s => Some (includes "timeout" s)
  | JArr l => Some (existsb (is_str "timeout") l)
  | _ => None
  end.

Definition plain_answer (st : Z) (msg : string) (err : jsval)
  (code : option jsval) (stg : option string) : answer :=
  mkAnswer st false msg (Some err) code stg None None None None None.

(** The [catch] block of the route. *)
Definition on_error (enabled : bool) (e : Error) : outcome :=
  let details := plain_answer 500
                   (if enabled then "Error scanning file"
                    else "Error processing file")
                   (err_message e) (Some (err_code e)) (Some "processing_error") in
  if is_str "EPIPE" (err_code e) || is_str "ECONNRESET" (err_code e) then
    Answered (plain_answer 503
      "Connection to virus scanner was lost. The file may be too large or the scanner may be overloaded. Please try again."
      (err_message e) (Some (err_code e)) (Some "connection_error"))
  else
    let timed_out :=
      if is_str "ETIMEDOUT" (err_code e) then Some true
      else message_includes_timeout (err_message e) in
    match timed_out with
    | None => Unanswered
    | Some true =>
        Answered (plain_answer 504
          "Scan operation timed out. Large files may take longer than expected. Please try again or contact support."
          (err_message e) (Some (err_code e)) (Some "timeout_error"))
    | Some false => Answered details
    end.

(** The answer to a scan that completed. *)
Definition on_scanned (r : Retry.FileResult) (fileSize : Z) : answer :=
  let scanResult := Retry.result r in
  let bad := truthy (isInfected scanResult) in
  mkAnswer (if bad then 400 else 200) (negb bad)
    (if bad then "File is infected" else "File is clean and safe")
    None None None
    (Some (isInfected scanResult))
    (if bad then Some (viruses scanResult) else None)
    (Some true) (Some (method scanResult)) (Some fileSize).

(** The route [POST /upload]. [enabled] is the feature flag, [p] the pool
    when the request arrives, [init] the outcomes of the connection
    attempts of a warm-up, [file] is [req.file], [scanWithStream] gives how
    the scan settles at each retry index, [consume] how reading the stream
    settles when scanning is off, and [formatFileSize] is the helper of the
    route, whose floating-point arithmetic is not modelled. *)
Definition upload (enabled : bool) (p : ClamAVConnectionPool)
  (init : nat → settled conn) (file : option uploaded)
  (scanWithStream : nat → settled ScanResult) (consume : settled unit)
  (formatFileSize : Z → string) : outcome :=
  match file with
  | None =>
      Answered (plain_answer 400 "No file uploaded" (JStr "No file provided")
                  None None)
  | Some f =>
      let warm_up :=
        if enabled && negb (isReady p) then (initClamScan init p).2
        else Fulfilled tt in
      match warm_up with
      | Rejected e =>
          Answered (plain_answer 503
            "Virus scanner is not available. ClamAV may still be starting up or virus definitions are downloading. Please wait a few minutes and try again."
            (err_message e) None (Some "clamav_init_failed"))
      | Fulfilled _ =>
          let fileSize :=
            if (file_size f =? 0)%Z then buffer_length f else file_size f in
          if (fileSize =? 0)%Z then
            Answered (plain_answer 400
              "File is empty (0 bytes). Please check your file upload."
              (JStr "File size is 0 bytes") None (Some "validation_failed"))
          else if enabled && (MAX_FILE_SIZE_FOR_SCAN <? fileSize)%Z then
            Answered (mkAnswer 400 false
              ("File size (" +:+ formatFileSize fileSize +:+
               ") exceeds maximum scannable size of " +:+
               formatFileSize MAX_FILE_SIZE_FOR_SCAN)
              (Some (JStr "File too large for virus scanning")) None
              (Some "validation_failed") None None None None (Some fileSize))
          else if enabled then
            match (Retry.scanFile scanWithStream fileSize 0).1 with
            | Fulfilled r => Answered (on_scanned r fileSize)
            | Rejected e => on_error enabled e
            end
          else
            match consume with
            | Fulfilled _ =>
                Answered (mkAnswer 200 true
                  "File processed successfully (virus scanning disabled)"
                  None None None (Some (JBool false)) None (Some false)
                  (Some "none") (Some fileSize))
            | Rejected e => on_error enabled e
            end
      end
  end.

End Server.

(* ===================================================================== *)
(** ** Vocabulary of the statements and sample inputs *)
(* ===================================================================== *)

Section InterpVocabulary.

Import Interp.

Definition flag_indicates_infection (o : response) : Prop :=
  r_isInfected o = JBool true ∨ r_isInfected o = JStr "true" ∨
  r_isInfected o = JNum 1 ∨ r_infected o = JBool true.

Definition name_field_nonempty (o : response) : Prop :=
  (∃ l, r_viruses o = JArr l ∧ l ≠ []) ∨
  (∃ l, r_virus o = JArr l ∧ l ≠ []) ∨
  (∃ s, r_virus o = JStr s ∧ s ≠ "").

Definition file_has_marker (o : response) : Prop :=
  ∃ s, r_file o = JStr s ∧
       (includes "FOUND" s = true ∨ includes "Infected" s = true).

Definition not_unknown_command (o : response) : Prop :=
  resultString o ≠ JStr "UNKNOWN COMMAND".

(** A clean answer and an infected one, as the stream scan of the library
    shapes them. *)
Definition clean_response : response :=
  mkResponse (JStr "stream: OK") (JArr []) JUndefined (JBool false) JUndefined JNull.

Definition eicar_response : response :=
  mkResponse (JStr "stream: Eicar-Test-Signature FOUND")
    (JArr [JStr "Eicar-Test-Signature"]) JUndefined (JBool true) JUndefined JNull.

(** A response as the stream scan of the library gives it, answering
    [UNKNOWN COMMAND]. *)
Definition unknown_command_response : response :=
  mkResponse (JStr "UNKNOWN COMMAND") (JArr []) JUndefined JNull JUndefined JNull.

(** Infected by its flag alone, with an empty [viruses] array. *)
Definition flagged_unnamed_response : response :=
  mkResponse (JStr "stream: FOUND") (JArr []) JUndefined (JBool true) JUndefined JNull.

(** The daemon answers UNKNOWN COMMAND while the file field carries a
    marker and the flag is the boolean [false]. *)
Definition unknown_command_with_marker : response :=
  mkResponse (JStr "UNKNOWN COMMAND") JUndefined JUndefined (JBool false)
    JUndefined (JStr "upload.bin: Eicar-Test-Signature FOUND").

(** The daemon answers UNKNOWN COMMAND, without flag or name field, while
    the file field is the marker text. *)
Definition unknown_command_with_found : response :=
  mkResponse (JStr "UNKNOWN COMMAND") JUndefined JUndefined JUndefined
    JUndefined (JStr "FOUND: EICAR-Test-File").

(** The file field contains the marker text and more text after it. *)
Definition eicar_with_trailing_text : response :=
  mkResponse (JStr "stream: OK") JUndefined JUndefined JUndefined JUndefined
    (JStr "FOUND: EICAR-Test-File (quarantined)").

(** The file field is the marker text of the scenario. *)
Definition eicar_marker_response : response :=
  mkResponse (JStr "stream: OK") JUndefined JUndefined (JBool false) JUndefined
    (JStr "FOUND: EICAR-Test-File").

Fixpoint upper_case (s : string) : string :=
  match s with
  | EmptyString => EmptyString
  | String c s' => String (canonicalize c) (upper_case s')
  end.

(** An EPIPE as the socket layer raises it. *)
Definition epipe : Error :=
  <["code" := JStr "EPIPE"]> (<["errno" := JNum (-32)]>
    (<["syscall" := JStr "write"]> (new_Error "write EPIPE"))).

End InterpVocabulary.

Section PoolVocabulary.

Import Pool.

(** Both connections busy, the queue of capacity one taken. *)
Definition saturated_pool : ClamAVConnectionPool :=
  mkPool [1; 2] {[1; 2]} 2 [7] 1 true.

(** Both connections busy, three callers waiting. *)
Definition pool_with_waiters : ClamAVConnectionPool :=
  mkPool [1; 2] {[1; 2]} 2 [7; 8; 9] 20 true.

(** All five connections are busy and one caller waits. *)
Definition busy_pool_one_waiter : ClamAVConnectionPool :=
  mkPool [1; 2; 3; 4; 5] {[1; 2; 3; 4; 5]} 5 [7] 20 true.

(** The collection holds each connection once and every connection in use
    is in the collection. *)
Definition consistent (p : ClamAVConnectionPool) : Prop :=
  NoDup (pool p) ∧ ∀ c, c ∈ inUse p → c ∈ pool p.

(** A release is of a connection that is still in the collection. *)
Definition permitted (s : System) (ev : event) : Prop :=
  match ev with
  | Release c => c ∈ pool (state s)
  | _ => True
  end.




(** Six callers call acquire() on the new pool before any connection is
    established; then the six creations succeed. *)
Definition six_concurrent_acquires : list event :=
  [Acquire 1; Acquire 2; Acquire 3; Acquire 4; Acquire 5; Acquire 6;
   Created 1 101; Created 2 102; Created 3 103;
   Created 4 104; Created 5 105; Created 6 106].

(** The run of a creation that starts at loop index [a] and ends at its
    attempt of index [k]. *)
Definition schedule_from (a k : nat) : list io :=
  flat_map (λ i, [Establish i; Sleep (delay * Z.of_nat i)]) (seq a (k - a))
  ++ [Establish k].

Definition schedule (k : nat) : list io := schedule_from 1 k.

Definition is_establish (x : io) : bool :=
  match x with Establish _ => true | Sleep _ => false end.

Definition establishments (t : list io) : nat :=
  length (List.filter is_establish t).

End PoolVocabulary.

Section RetryVocabulary.

Import Retry.

(** Every call of scanWithStream is rejected with the EPIPE error. *)
Definition always_epipe : nat → settled ScanResult := λ _, Rejected epipe.

(** The error carries the attempt count [n] in one of its properties. *)
Definition tagged_with_attempts (e : Error) (n : nat) : Prop :=
  ∃ k, e !! k = Some (JNum (Z.of_nat n)).

End RetryVocabulary.

Section PoolInvariantVocabulary.

Import Pool.

(** The queue holds no more than [maxQueueSize] callers. *)
Definition queue_within_bound (p : ClamAVConnectionPool) : Prop :=
  length (queue p) ≤ maxQueueSize p.


(** Every release of the run is of a connection still in the collection. *)
Fixpoint all_permitted (s : System) (evs : list event) : Prop :=
  match evs with
  | [] => True
  | ev :: evs' =>
      permitted s ev ∧
      ∀ s' effs, step s ev = Some (s', effs) → all_permitted s' evs'
  end.

(** Two connections, one of them idle, nobody waiting. *)
Definition half_busy_pool : ClamAVConnectionPool :=
  mkPool [1; 2] {[1]} 5 [] 20 true.


End PoolInvariantVocabulary.

Section ServerVocabulary.

Import Pool.

(** One connection, busy, nobody waiting. *)
Definition single_busy_pool : ClamAVConnectionPool :=
  mkPool [1] {[1]} 5 [] 20 true.

(** A timeout error of the socket layer. *)
Definition etimedout : Error :=
  <["code" := JStr "ETIMEDOUT"]> (new_Error "connect ETIMEDOUT 127.0.0.1:4000").

(** The daemon accepts the connection at the third attempt. *)
Definition third_attempt_succeeds : nat → settled conn :=
  λ i, if decide (i = 3) then Fulfilled 42
       else Rejected (new_Error "connect ECONNREFUSED 127.0.0.1:4000").

(** The daemon is never reachable. *)
Definition never_reachable : nat → settled conn :=
  λ _, Rejected (new_Error "connect ECONNREFUSED 127.0.0.1:4000").

End ServerVocabulary.

Section RetryScheduleVocabulary.

Import Retry.

(** What scanFile does when its call at retry index [k] is the last one:
    the calls at indexes 0 to [k], with a sleep of [1000 * (i + 1)]
    milliseconds after the call at index [i < k]. *)
Definition retry_schedule_from (rc k : nat) : list io :=
  flat_map (λ i, [Scan i; Sleep (1000 * (Z.of_nat i + 1))]) (seq rc (k - rc))
  ++ [Scan k].

Definition retry_schedule (k : nat) : list io := retry_schedule_from 0 k.

(** The first scan breaks with EPIPE, the second gives a clean answer. *)
Definition epipe_then_clean : nat → settled ScanResult :=
  λ i, if decide (i = 0) then Rejected epipe
       else Fulfilled (mkScanResult JNull [] "clamdscan (stream)"
                         clean_response false).

End RetryScheduleVocabulary.

Section NameVocabulary.

Definition head_is_space (s : string) : bool :=
  match s with
  | String c _ => is_space c
  | EmptyString => false
  end.

Fixpoint last_is_space (s : string) : bool :=
  match s with
  | EmptyString => false
  | String c EmptyString => is_space c
  | String _ s' => last_is_space s'
  end.

Fixpoint has_line_terminator (s : string) : bool :=
  match s with
  | EmptyString => false
  | String c s' => is_line_terminator c || has_line_terminator s'
  end.

End NameVocabulary.

Section ShapeVocabulary.

Import Interp.

(** The shape the stream scan of the library gives its answer: the flag is
    a boolean or [null], [viruses] is an array, [file] is [null], and
    there is neither [virus] nor [infected]. *)
Definition library_shape (o : response) (l : list jsval) : Prop :=
  r_viruses o = JArr l ∧ r_virus o = JUndefined ∧ r_infected o = JUndefined ∧
  r_file o = JNull ∧
  (r_isInfected o = JNull ∨ ∃ b, r_isInfected o = JBool b).

(** The file field carries a marker with spaces around the name. *)
Definition padded_marker_response : response :=
  mkResponse (JStr "stream: OK") JUndefined JUndefined JUndefined JUndefined
    (JStr "scan.log: FOUND:    Win.Test.EICAR_HDB-1   ").

End ShapeVocabulary.

Section UploadVocabulary.

Import Server.

(** The code unit [c] is the letter written [lower] or [upper]. *)
Definition is_letter (c : Ascii.ascii) (lower upper : string) : Prop :=
  String c "" = lower ∨ String c "" = upper.

(** The word [false] in any mix of upper and lower case. *)
Definition is_word_false (v : string) : Prop :=
  ∃ c1 c2 c3 c4 c5,
    v = String c1 (String c2 (String c3 (String c4 (String c5 "")))) ∧
    is_letter c1 "f" "F" ∧ is_letter c2 "a" "A" ∧ is_letter c3 "l" "L" ∧
    is_letter c4 "s" "S" ∧ is_letter c5 "e" "E".

(** [req.file.size || req.file.buffer.length]. *)
Definition effective_size (f : uploaded) : Z :=
  if (file_size f =? 0)%Z then buffer_length f else file_size f.

(** The route refuses the request before any scan: no file, an empty
    file, or, with scanning on, a file above the 32-bit limit. *)
Definition refused_before_scan (enabled : bool) (file : option uploaded) : Prop :=
  file = None ∨
  ∃ f, file = Some f ∧
       (effective_size f = 0%Z ∨
        (enabled = true ∧ (MAX_FILE_SIZE_FOR_SCAN < effective_size f)%Z)).

(** A file the route passes on to the scan when scanning is on. *)
Definition scannable (f : uploaded) : Prop :=
  effective_size f ≠ 0%Z ∧ (effective_size f ≤ MAX_FILE_SIZE_FOR_SCAN)%Z.

Definition one_kilobyte : uploaded := mkUploaded 1024 1024.

Definition empty_upload : uploaded := mkUploaded 0 0.

(** The helper of the route is not modelled; any function can stand for
    it. *)
Definition no_format : Z → string := λ _, "".

(** Every scan answers UNKNOWN COMMAND. *)
Definition always_unknown_command : nat → settled ScanResult :=
  λ _, Fulfilled (mkScanResult (JBool false) [] "clamdscan (stream - failed)"
                    unknown_command_response true).

(** The first scan finds the sample infected. *)
Definition eicar_scan : nat → settled ScanResult :=
  λ _, Fulfilled (mkScanResult (JBool true) [JStr "Eicar-Test-Signature"]
                    "clamdscan (stream)" eicar_response false).

End UploadVocabulary.

Section EvictionVocabulary.

Import Pool.

(** The event brings the connection [c] back: its creation completes, or a
    caller that still holds it releases it. *)
Definition brings_back (c : conn) (ev : event) : Prop :=
  match ev with
  | Created _ c' => c' = c
  | Release c' => c' = c
  | _ => False
  end.

(** The milliseconds slept in a run of the creation loop. *)
Fixpoint total_sleep (t : list io) : Z :=
  match t with
  | [] => 0
  | Establish _ :: t' => total_sleep t'
  | Sleep ms :: t' => ms + total_sleep t'
  end.

End EvictionVocabulary.

(* ===================================================================== *)
(** ** Properties of the interpretation *)
(* ===================================================================== *)

Section InterpFacts.

Import Interp.

Lemma truthy_js_or a b : truthy (js_or a b) = truthy a || truthy b.
Proof. unfold js_or. destruct (truthy a) eqn:E; simpl; [exact E | reflexivity]. Qed.

Lemma truthy_js_and a b : truthy (js_and a b) = truthy a && truthy b.
Proof. unfold js_and. destruct (truthy a) eqn:E; simpl; [reflexivity | exact E]. Qed.

(** A truthy [&&] whose right operand is a boolean is [true] itself. *)
Lemma js_and_bool_true a b :
  truthy (js_and a (JBool b)) = true → js_and a (JBool b) = JBool true.
Proof.
  unfold js_and. destruct (truthy a) eqn:E; simpl.
  - intros ->. reflexivity.
  - intros H. rewrite E in H. discriminate.
Qed.

Lemma js_or_true a b :
  (truthy a = true → a = JBool true) →
  (truthy b = true → b = JBool true) →
  truthy (js_or a b) = true → js_or a b = JBool true.
Proof.
  intros Ha Hb. unfold js_or. destruct (truthy a) eqn:E; auto.
Qed.

Lemma hasViruses_true o :
  truthy (hasViruses o) = true → hasViruses o = JBool true.
Proof.
  unfold hasViruses. apply js_or_true; apply js_and_bool_true.
Qed.

Lemma hasVirusInName_true o :
  truthy (hasVirusInName o) = true → hasVirusInName o = JBool true.
Proof. unfold hasVirusInName. apply js_and_bool_true. Qed.

(** The verdict is the boolean [true] as soon as it is truthy; a verdict
    that is not truthy can be [false], [undefined], [null], [0] or the
    empty string. *)
Lemma infection_true o :
  truthy (infection o) = true → infection o = JBool true.
Proof.
  unfold infection. apply js_or_true.
  - apply js_or_true.
    + simpl. intros ->. reflexivity.
    + apply hasViruses_true.
  - apply hasVirusInName_true.
Qed.

Lemma truthy_infection o :
  truthy (infection o) =
  isInfectedFlag o || truthy (hasViruses o) || truthy (hasVirusInName o).
Proof. unfold infection. rewrite !truthy_js_or. reflexivity. Qed.

Lemma final_viruses_nonempty o :
  truthy (infection o) = true → final_viruses o ≠ [].
Proof.
  intros H. unfold final_viruses. rewrite H. simpl.
  destruct (extract_viruses o) as [|v vs] eqn:E; simpl; discriminate.
Qed.

(** On a clean answer none of the three markers is truthy and the verdict
    is the last operand of the [||] chain, the [null] of the file field. *)
Example interpret_clean :
  interpret (Some clean_response) =
    Some (mkScanResult JNull [] "clamdscan (stream)" clean_response false).
Proof. reflexivity. Qed.

Example interpret_eicar :
  interpret (Some eicar_response) =
    Some (mkScanResult (JBool true) [JStr "Eicar-Test-Signature"]
            "clamdscan (stream)" eicar_response false).
Proof. reflexivity. Qed.

Example match_FOUND_examples :
  match_FOUND "stream: found:   Eicar  " = Some "Eicar  " ∧
  match_FOUND "FOUND:  " = Some " " ∧
  match_FOUND "upload.bin: Eicar-Test-Signature FOUND" = None ∧
  trim "  a b " = "a b".
Proof. repeat split. Qed.

Lemma interpret_inv obj r :
  interpret obj = Some r →
  ∃ o, obj = Some o ∧
    ((is_str "UNKNOWN COMMAND" (resultString o) = true ∧
      r = mkScanResult (JBool false) [] "clamdscan (stream - failed)" o true) ∨
     (is_str "UNKNOWN COMMAND" (resultString o) = false ∧
      r = mkScanResult (infection o) (final_viruses o) "clamdscan (stream)"
            (raw_after o) false)).
Proof.
  destruct obj as [o|]; simpl; [|discriminate].
  destruct (is_str _ _) eqn:E; intros [= <-]; exists o; split; auto.
Qed.

End InterpFacts.

Section Markers.

Import Interp.

Lemma is_str_false lit v : v ≠ JStr lit → is_str lit v = false.
Proof.
  destruct v; simpl; try reflexivity.
  intros H. destruct (String.eqb_spec s lit); [subst; congruence | reflexivity].
Qed.

Lemma is_str_true lit v : is_str lit v = true ↔ v = JStr lit.
Proof.
  destruct v; simpl; try (split; [discriminate | congruence]).
  rewrite String.eqb_eq. split; congruence.
Qed.

Lemma is_true_iff v : is_true v = true ↔ v = JBool true.
Proof.
  destruct v as [| |[]| | |]; simpl; split; congruence.
Qed.

Lemma is_num_iff n v : is_num n v = true ↔ v = JNum n.
Proof.
  destruct v; simpl; try (split; [discriminate | congruence]).
  rewrite Z.eqb_eq. split; congruence.
Qed.

Lemma isInfectedFlag_iff o :
  isInfectedFlag o = true ↔ flag_indicates_infection o.
Proof.
  unfold isInfectedFlag, flag_indicates_infection.
  rewrite !orb_true_iff, !is_true_iff, is_str_true, is_num_iff. tauto.
Qed.

Lemma eqb_empty_false s : negb (String.eqb s "") = true ↔ s ≠ "".
Proof. destruct s; simpl; split; congruence. Qed.

Lemma length_nonzero {A} (l : list A) : negb (Nat.eqb (length l) 0) = true ↔ l ≠ [].
Proof. destruct l; simpl; split; congruence. Qed.

Lemma hasViruses_iff o :
  truthy (hasViruses o) = true ↔ name_field_nonempty o.
Proof.
  unfold hasViruses, name_field_nonempty.
  rewrite truthy_js_or, !truthy_js_and, orb_true_iff, !andb_true_iff. simpl.
  split.
  - intros [[[_ Ha] Hl] | [Ht Hl]].
    + left. destruct (r_viruses o); try discriminate.
      eexists; split; [reflexivity | by apply length_nonzero].
    + right. destruct (r_virus o); try discriminate.
      * right. eexists; split; [reflexivity | by apply eqb_empty_false].
      * left. eexists; split; [reflexivity | by apply length_nonzero].
  - intros [(l & -> & Hl) | [(l & -> & Hl) | (s & -> & Hs)]]; simpl.
    + left. by rewrite (proj2 (length_nonzero l) Hl).
    + right. by rewrite (proj2 (length_nonzero l) Hl).
    + right. by rewrite (proj2 (eqb_empty_false s) Hs).
Qed.

Lemma includes_nonempty p s : p ≠ "" → includes p s = true → s ≠ "".
Proof. destruct p; [congruence|]. destruct s; simpl; [discriminate | congruence]. Qed.

Lemma hasVirusInName_iff o :
  truthy (hasVirusInName o) = true ↔ file_has_marker o.
Proof.
  unfold hasVirusInName, file_has_marker.
  rewrite !truthy_js_and, !andb_true_iff. simpl. split.
  - intros [[_ Hs] Ht]. destruct (r_file o); try discriminate.
    simpl in Ht. apply orb_true_iff in Ht. eauto.
  - intros (s & -> & Hs). simpl.
    assert (s ≠ "") by (destruct Hs; eapply includes_nonempty; eauto; discriminate).
    rewrite (proj2 (eqb_empty_false s)) by done.
    by rewrite (proj2 (orb_true_iff _ _) Hs).
Qed.

(** The verdict is [true] exactly when one of the three markers is there. *)
Lemma infection_iff o :
  infection o = JBool true ↔
  flag_indicates_infection o ∨ name_field_nonempty o ∨ file_has_marker o.
Proof.
  rewrite <- isInfectedFlag_iff, <- hasViruses_iff, <- hasVirusInName_iff.
  split.
  - intros H. assert (Ht : truthy (infection o) = true) by (rewrite H; done).
    rewrite truthy_infection, !orb_true_iff in Ht. tauto.
  - intros H. apply infection_true.
    rewrite truthy_infection, !orb_true_iff. tauto.
Qed.

Lemma interpret_normal o :
  not_unknown_command o →
  interpret (Some o) =
    Some (mkScanResult (infection o) (final_viruses o) "clamdscan (stream)"
            (raw_after o) false).
Proof. intros H. simpl. by rewrite is_str_false. Qed.

End Markers.

(* ===================================================================== *)
(** ** The verdict of a daemon response *)
(* ===================================================================== *)

Section Verdict.

Import Interp.

(** C5. A response whose result string is UNKNOWN COMMAND is interpreted as
    needsFallback = true, isInfected = false, an empty viruses list and the
    method tag of the failed stream attempt; and no result of the
    interpretation has needsFallback = true together with an infected
    verdict. *)
Theorem unknown_command_needs_fallback (obj : option response) (r : ScanResult) :
  (∀ o, obj = Some o → resultString o = JStr "UNKNOWN COMMAND" →
     interpret obj =
       Some {| isInfected := JBool false; viruses := [];
               method := "clamdscan (stream - failed)";
               rawResult := o; needsFallback := true |}) ∧
  (interpret obj = Some r → needsFallback r = true →
     isInfected r = JBool false ∧ isInfected r ≠ JBool true ∧
     truthy (isInfected r) = false ∧ viruses r = []).
Proof.
  split.
  - intros o -> Hrs. simpl. rewrite Hrs. reflexivity.
  - intros Hi Hn. apply interpret_inv in Hi as (o & _ & [[_ ->] | [_ ->]]).
    + simpl. repeat split; congruence.
    + simpl in Hn. discriminate.
Qed.

Lemma unknown_command_needs_fallback_witness :
  resultString unknown_command_response = JStr "UNKNOWN COMMAND" ∧
  ∃ r, interpret (Some unknown_command_response) = Some r ∧
       needsFallback r = true ∧
       isInfected r = JBool false ∧ viruses r = [].
Proof.
  split; [reflexivity |].
  set (r := mkScanResult (JBool false) [] "clamdscan (stream - failed)"
              unknown_command_response true).
  destruct (unknown_command_needs_fallback (Some unknown_command_response) r)
    as [H1 H2].
  exists r. split; [apply (H1 unknown_command_response); reflexivity |].
  split; [reflexivity |].
  destruct H2 as (Hf & _ & _ & Hv); [reflexivity | reflexivity |].
  split; [exact Hf | exact Hv].
Defined.

(** C6. A result with an infected verdict has a non-empty viruses list; and
    when the verdict is infected while no name was extracted from any
    field, the list is exactly the one generic label. On the path that
    reads the markers the verdict is infected as soon as one of them is
    there, so a marker without an extracted name gives that list too. *)
Theorem infected_has_threat (obj : option response) (r : ScanResult) :
  interpret obj = Some r →
  (isInfected r = JBool true → viruses r ≠ []) ∧
  (truthy (isInfected r) = true → viruses r ≠ []) ∧
  (∀ o, obj = Some o → truthy (isInfected r) = true →
     extract_viruses o = [] → viruses r = [JStr "Threat detected"]) ∧
  (∀ o, obj = Some o → needsFallback r = false →
     flag_indicates_infection o ∨ name_field_nonempty o ∨ file_has_marker o →
     extract_viruses o = [] →
     isInfected r = JBool true ∧ viruses r = [JStr "Threat detected"]).
Proof.
  intros Hi. apply interpret_inv in Hi as (o & -> & [[_ ->] | [_ ->]]); simpl.
  - repeat split; try discriminate.
  - assert (Hne : truthy (infection o) = true → final_viruses o ≠ [])
      by apply final_viruses_nonempty.
    split; [intros H; apply Hne; rewrite H; reflexivity |].
    split; [exact Hne |]. split.
    + intros o' [= <-] Ht He. unfold final_viruses. rewrite Ht, He. reflexivity.
    + intros o' [= <-] _ Hm He. apply infection_iff in Hm.
      split; [exact Hm |]. unfold final_viruses. rewrite Hm, He. reflexivity.
Qed.

Lemma infected_has_threat_witness :
  extract_viruses flagged_unnamed_response = [] ∧
  ∃ r, interpret (Some flagged_unnamed_response) = Some r ∧
       isInfected r = JBool true ∧
       viruses r ≠ [] ∧ viruses r = [JStr "Threat detected"].
Proof.
  split; [reflexivity |].
  set (r := mkScanResult (JBool true) [JStr "Threat detected"]
              "clamdscan (stream)" (raw_after flagged_unnamed_response) false).
  destruct (infected_has_threat (Some flagged_unnamed_response) r)
    as (H1 & _ & H3 & _); [reflexivity |].
  exists r. split; [reflexivity |]. split; [reflexivity |]. split.
  - apply H1. reflexivity.
  - apply (H3 flagged_unnamed_response); reflexivity.
Defined.

End Verdict.

Section MarkerClaims.

Import Interp.

(** C10, as stated, fails on a response that answers UNKNOWN COMMAND: its
    flag is [false], its file field contains FOUND, and the result reports
    isInfected = false. *)
Lemma marker_ignored_on_unknown_command :
  r_isInfected unknown_command_with_marker = JBool false ∧
  file_has_marker unknown_command_with_marker ∧
  isInfected <$> interpret (Some unknown_command_with_marker) = Some (JBool false) ∧
  isInfected <$> interpret (Some unknown_command_with_marker) ≠ Some (JBool true).
Proof.
  split; [reflexivity |]. split.
  - eexists. split; [reflexivity |]. left. reflexivity.
  - split; [reflexivity | discriminate].
Qed.

(** C10 (amended). For a response that is not the UNKNOWN COMMAND answer,
    the verdict is [true] if and only if the flag indicates infection, or a
    virus-name field is non-empty, or the file field contains FOUND or
    Infected; the verdict is truthy only when it is [true]; and a flag that
    is the boolean [false] does not override a marker in the file field. *)
Theorem markers_combine_disjunctively (o : response) :
  not_unknown_command o →
  ∃ r, interpret (Some o) = Some r ∧
    (isInfected r = JBool true ↔
       flag_indicates_infection o ∨ name_field_nonempty o ∨ file_has_marker o) ∧
    (truthy (isInfected r) = true ↔ isInfected r = JBool true) ∧
    (r_isInfected o = JBool false → file_has_marker o →
       isInfected r = JBool true).
Proof.
  intros Hn. eexists. split; [by apply interpret_normal |]. simpl.
  split; [apply infection_iff |]. split.
  - split; [apply infection_true | intros ->; reflexivity].
  - intros _ Hm. apply infection_iff. tauto.
Qed.

Lemma markers_combine_disjunctively_witness :
  ∃ r, interpret (Some eicar_marker_response) = Some r ∧
       isInfected r = JBool true.
Proof.
  destruct (markers_combine_disjunctively eicar_marker_response)
    as (r & Hr & _ & _ & Hm).
  - discriminate.
  - exists r. split; [exact Hr |]. apply Hm.
    + reflexivity.
    + eexists. split; [reflexivity |]. left. reflexivity.
Defined.

(** C7, as stated, fails when more text follows the marker on its line: the
    file field contains "FOUND: EICAR-Test-File", there is neither flag nor
    name field, and the viruses list is not ["EICAR-Test-File"]. It also
    fails on a response that answers UNKNOWN COMMAND: with the same file
    field, neither flag nor name field, the result is not infected and its
    viruses list is empty. *)
Lemma trailing_text_is_captured :
  (r_isInfected eicar_with_trailing_text = JUndefined ∧
   r_infected eicar_with_trailing_text = JUndefined ∧
   r_viruses eicar_with_trailing_text = JUndefined ∧
   r_virus eicar_with_trailing_text = JUndefined ∧
   (∃ s, r_file eicar_with_trailing_text = JStr s ∧
         includes "FOUND: EICAR-Test-File" s = true) ∧
   viruses <$> interpret (Some eicar_with_trailing_text) =
     Some [JStr "EICAR-Test-File (quarantined)"] ∧
   viruses <$> interpret (Some eicar_with_trailing_text) ≠
     Some [JStr "EICAR-Test-File"]) ∧
  (r_isInfected unknown_command_with_found = JUndefined ∧
   r_infected unknown_command_with_found = JUndefined ∧
   r_viruses unknown_command_with_found = JUndefined ∧
   r_virus unknown_command_with_found = JUndefined ∧
   r_file unknown_command_with_found = JStr "FOUND: EICAR-Test-File" ∧
   interpret (Some unknown_command_with_found) =
     Some (mkScanResult (JBool false) [] "clamdscan (stream - failed)"
             unknown_command_with_found true)).
Proof.
  split.
  - repeat (split; [reflexivity |]). split.
    + eexists. split; reflexivity.
    + split; [reflexivity | discriminate].
  - repeat split.
Qed.

Lemma match_FOUND_cons c s :
  match_FOUND (String c s) =
    match match_here (String c s) with
    | Some g => Some g
    | None => match_FOUND s
    end.
Proof. reflexivity. Qed.

(** The search passes over a prefix in which the pattern matches nowhere. *)
Lemma match_FOUND_after pre : ∀ s,
  (∀ i, i < String.length pre → match_here (slice i (pre +:+ s)) = None) →
  match_FOUND (pre +:+ s) = match_FOUND s.
Proof.
  induction pre as [|c pre IH]; intros s H; [reflexivity |].
  change (String c pre +:+ s) with (String c (pre +:+ s)).
  rewrite match_FOUND_cons.
  assert (H0 : match_here (String c (pre +:+ s)) = None)
    by (apply (H 0); simpl; lia).
  rewrite H0. apply IH. intros i Hi. apply (H (S i)). simpl. lia.
Qed.

(** C7 (amended). For a response that is not the UNKNOWN COMMAND answer,
    has no infection flag and no virus-name field, and whose file field
    contains FOUND: the verdict is [true]; when the pattern FOUND:\s*(.+)
    matches (in any letter case, at its leftmost position) the viruses list
    is the trimmed capture, which runs to the end of the line, and otherwise
    it is the one generic label; a file field that ends with
    "FOUND: EICAR-Test-File", the pattern matching nowhere before it, gives
    ["EICAR-Test-File"], and so does the field that is exactly that text. *)
Theorem found_marker_extraction (o : response) (s : string) :
  not_unknown_command o →
  isInfectedFlag o = false →
  truthy (r_viruses o) = false →
  truthy (r_virus o) = false →
  r_file o = JStr s →
  includes "FOUND" s = true →
  ∃ r, interpret (Some o) = Some r ∧
    isInfected r = JBool true ∧
    viruses r = match match_FOUND s with
                | Some g => [JStr (trim g)]
                | None => [JStr "Threat detected"]
                end ∧
    (∀ pre, s = pre +:+ "FOUND: EICAR-Test-File" →
       (∀ i, i < String.length pre → match_here (slice i s) = None) →
       viruses r = [JStr "EICAR-Test-File"]) ∧
    (s = "FOUND: EICAR-Test-File" → viruses r = [JStr "EICAR-Test-File"]).
Proof.
  intros Hn Hf Hvs Hv Hfile Hinc.
  assert (Hm : file_has_marker o) by (exists s; auto).
  assert (Hi : infection o = JBool true) by (apply infection_iff; tauto).
  assert (Hname : hasVirusInName o = JBool true).
  { apply hasVirusInName_true. by apply hasVirusInName_iff. }
  assert (Hs : truthy (JStr s) = true).
  { simpl. apply eqb_empty_false. eapply includes_nonempty; eauto. discriminate. }
  assert (Hx : extract_viruses o =
               match match_FOUND s with Some g => [JStr (trim g)] | None => [] end).
  { unfold extract_viruses. rewrite truthy_js_and, Hvs, Hv, Hname, Hfile.
    simpl in *. rewrite Hs. reflexivity. }
  assert (Hfin : final_viruses o =
                 match match_FOUND s with
                 | Some g => [JStr (trim g)]
                 | None => [JStr "Threat detected"]
                 end).
  { unfold final_viruses. rewrite Hi, Hx. simpl. by destruct (match_FOUND s). }
  eexists. split; [by apply interpret_normal |]. simpl.
  split; [exact Hi |]. split; [exact Hfin |]. split.
  - intros pre -> Hpre. rewrite Hfin, (match_FOUND_after pre _ Hpre).
    reflexivity.
  - intros ->. rewrite Hfin. reflexivity.
Qed.

Lemma found_marker_extraction_witness :
  ∃ r, interpret (Some eicar_marker_response) = Some r ∧
       isInfected r = JBool true ∧
       viruses r = [JStr "EICAR-Test-File"].
Proof.
  destruct (found_marker_extraction eicar_marker_response "FOUND: EICAR-Test-File")
    as (r & Hr & Hi & _ & _ & Hv); try reflexivity.
  - discriminate.
  - exists r. split; [exact Hr |]. split; [exact Hi |]. by apply Hv.
Defined.

End MarkerClaims.

(* ===================================================================== *)
(** ** The pool: acquire and release *)
(* ===================================================================== *)

Section PoolFacts.

Import Pool.

Lemma find_idle_none (p : ClamAVConnectionPool) :
  (∀ c, c ∈ pool p → c ∈ inUse p) →
  List.find (λ c, negb (bool_decide (c ∈ inUse p))) (pool p) = None.
Proof.
  generalize (inUse p) as u. induction (pool p) as [|x l IH]; intros u H.
  - reflexivity.
  - simpl. rewrite bool_decide_eq_true_2 by (apply H; left). simpl.
    apply IH. intros c Hc. apply H. by right.
Qed.

Lemma find_idle_some (p : ClamAVConnectionPool) c :
  List.find (λ c, negb (bool_decide (c ∈ inUse p))) (pool p) = Some c →
  c ∈ pool p ∧ c ∉ inUse p.
Proof.
  intros H. apply List.find_some in H as [Hin Hb].
  split; [by apply list_elem_of_In |].
  apply negb_true_iff, bool_decide_eq_false in Hb. exact Hb.
Qed.

(** C3. With the collection at maxConnections, none of them idle, and the
    queue at maxQueueSize, acquire() rejects at once with the queue-full
    error, whose message ends in "Too many concurrent scan requests."; the
    pool, and so the queue, is left as it was and the caller is not
    enqueued. *)
Theorem acquire_rejects_when_saturated (w : waiter) (p : ClamAVConnectionPool) :
  length (pool p) = maxConnections p →
  (∀ c, c ∈ pool p → c ∈ inUse p) →
  length (queue p) = maxQueueSize p →
  acquire w p = (p, [Reject w (new_Error queue_full_message)]) ∧
  new_Error queue_full_message !! "message" =
    Some (JStr "Connection pool queue is full. Too many concurrent scan requests.") ∧
  includes (upper_case "too many concurrent scan requests")
           (upper_case queue_full_message) = true.
Proof.
  intros Hfull Hbusy Hq. split; [| split; reflexivity].
  unfold acquire. rewrite find_idle_none by exact Hbusy.
  rewrite bool_decide_eq_false_2 by lia.
  rewrite bool_decide_eq_true_2 by lia. reflexivity.
Qed.

Lemma acquire_rejects_when_saturated_witness :
  acquire 8 saturated_pool =
    (saturated_pool, [Reject 8 (new_Error queue_full_message)]).
Proof.
  apply (acquire_rejects_when_saturated 8 saturated_pool).
  - reflexivity.
  - intros c Hc. simpl in *. apply elem_of_union.
    apply elem_of_cons in Hc as [-> | Hc]; [left | right];
      apply elem_of_singleton; [reflexivity |].
    by apply list_elem_of_singleton in Hc.
  - reflexivity.
Defined.

End PoolFacts.

Section ReleaseFacts.

Import Pool.

Lemma release_nonempty c p w rest :
  queue p = w :: rest →
  release c p =
    (mkPool (pool p) ({[c]} ∪ inUse p ∖ {[c]}) (maxConnections p) rest
            (maxQueueSize p) (initialized p),
     [Resolve w c]).
Proof. intros H. unfold release. simpl. rewrite H. reflexivity. Qed.

Lemma release_empty c p :
  queue p = [] →
  release c p = (set_inUse (inUse p ∖ {[c]}) p, []).
Proof. intros H. unfold release. simpl. rewrite H. reflexivity. Qed.

(** Releases in a row serve the queue from its head, one waiter each. *)
Lemma release_all_fifo cs : ∀ p,
  length cs ≤ length (queue p) →
  (release_all cs p).2 = zip_with Resolve (take (length cs) (queue p)) cs ∧
  queue (release_all cs p).1 = drop (length cs) (queue p).
Proof.
  induction cs as [|c cs IH]; intros p Hlen; simpl.
  - split; reflexivity.
  - destruct (queue p) as [|w rest] eqn:Hq; simpl in Hlen; [lia |].
    rewrite (release_nonempty c p w rest Hq). simpl.
    specialize (IH (mkPool (pool p) ({[c]} ∪ inUse p ∖ {[c]}) (maxConnections p)
                      rest (maxQueueSize p) (initialized p))).
    simpl in IH. destruct IH as [IH1 IH2]; [lia |].
    rewrite IH1, IH2. done.
Qed.

(** Callers that find every connection busy and the collection full are
    enqueued in the order of their calls. *)
Lemma acquire_all_enqueues ws : ∀ p,
  (∀ c, c ∈ pool p → c ∈ inUse p) →
  maxConnections p ≤ length (pool p) →
  length (queue p) + length ws ≤ maxQueueSize p →
  acquire_all ws p = (set_queue (queue p ++ ws) p, []).
Proof.
  induction ws as [|w ws IH]; intros p Hbusy Hfull Hroom; simpl.
  - rewrite app_nil_r. by destruct p.
  - simpl in Hroom.
    assert (Ha : acquire w p = (set_queue (queue p ++ [w]) p, [])).
    { unfold acquire. rewrite find_idle_none by exact Hbusy.
      rewrite bool_decide_eq_false_2 by lia.
      rewrite bool_decide_eq_false_2 by lia. reflexivity. }
    rewrite Ha. simpl. rewrite IH; simpl.
    + unfold set_queue. simpl. by rewrite <- app_assoc.
    + exact Hbusy.
    + exact Hfull.
    + rewrite length_app. simpl. lia.
Qed.

(** C4. A release while the queue is non-empty resolves the promise of the
    waiter at the head of the queue with the released connection, removes
    that waiter from the queue, and leaves the connection in the in-use set
    and the collection untouched, all in the one transition; the only way
    into the queue is at its tail, releases in a row serve the waiters from
    the head of the queue, and so callers enqueued one after the other are
    served in the order of their acquire() calls. *)
Theorem release_serves_head_waiter (c : conn) (p : ClamAVConnectionPool)
  (w : waiter) (rest : list waiter) :
  queue p = w :: rest →
  (release c p).2 = [Resolve w c] ∧
  queue (release c p).1 = rest ∧
  c ∈ inUse (release c p).1 ∧
  (c ∈ inUse p → inUse (release c p).1 = inUse p) ∧
  pool (release c p).1 = pool p ∧
  (∀ w' p', acquire w' p = (p', []) → queue p' = queue p ++ [w']) ∧
  (∀ cs, length cs ≤ length (queue p) →
     (release_all cs p).2 = zip_with Resolve (take (length cs) (queue p)) cs ∧
     queue (release_all cs p).1 = drop (length cs) (queue p)) ∧
  (∀ ws cs,
     (∀ x, x ∈ pool p → x ∈ inUse p) →
     maxConnections p ≤ length (pool p) →
     length (queue p) + length ws ≤ maxQueueSize p →
     length cs ≤ length (queue p) + length ws →
     (acquire_all ws p).2 = [] ∧
     (release_all cs (acquire_all ws p).1).2 =
       zip_with Resolve (take (length cs) (queue p ++ ws)) cs).
Proof.
  intros Hq. rewrite (release_nonempty c p w rest Hq). simpl.
  split; [reflexivity |]. split; [reflexivity |].
  split; [apply elem_of_union; left; by apply elem_of_singleton |]. split.
  { intros Hc. apply set_eq. intros x.
    rewrite elem_of_union, elem_of_difference, elem_of_singleton. split.
    - intros [-> | [Hx _]]; done.
    - intros Hx. destruct (decide (x = c)); [by left | by right]. }
  split; [reflexivity |]. split.
  - intros w' p'. unfold acquire.
    destruct (List.find _ _); [intros [= _ ?]; discriminate |].
    repeat case_bool_decide; intros [= <-]; reflexivity.
  - split; [intros cs; apply release_all_fifo |].
    intros ws cs Hbusy Hfull Hroom Hlen.
    rewrite (acquire_all_enqueues ws p Hbusy Hfull Hroom). simpl.
    split; [reflexivity |].
    apply (release_all_fifo cs (set_queue (queue p ++ ws) p)).
    simpl. rewrite length_app. exact Hlen.
Qed.

Lemma release_serves_head_waiter_witness :
  (release 2 pool_with_waiters).2 = [Resolve 7 2] ∧
  queue (release 2 pool_with_waiters).1 = [8; 9] ∧
  2 ∈ inUse (release 2 pool_with_waiters).1 ∧
  (release_all [2; 1] pool_with_waiters).2 = [Resolve 7 2; Resolve 8 1].
Proof.
  destruct (release_serves_head_waiter 2 pool_with_waiters 7 [8; 9])
    as (H1 & H2 & H3 & _ & _ & _ & H7 & _); [reflexivity |].
  repeat (split; [assumption |]).
  apply (H7 [2; 1]). simpl. lia.
Defined.

End ReleaseFacts.

(* ===================================================================== *)
(** ** The pool: eviction after a connection error *)
(* ===================================================================== *)

Section Eviction.

Import Pool.

Lemma remove_first_not_in c l : NoDup l → c ∉ remove_first c l.
Proof.
  induction l as [|x l IH]; intros Hnd; simpl.
  - apply not_elem_of_nil.
  - apply NoDup_cons in Hnd as [Hx Hnd]. destruct (decide (x = c)) as [->|Hne].
    + exact Hx.
    + intros H. apply elem_of_cons in H as [Heq | Hin];
        [congruence | by apply IH].
Qed.

Lemma remove_first_subset c l x : x ∈ remove_first c l → x ∈ l.
Proof.
  induction l as [|y l IH]; simpl; [done |].
  destruct (decide (y = c)).
  - intros H. by right.
  - intros H. apply elem_of_cons in H as [-> | H];
      [by left | right; by apply IH].
Qed.

(** With nobody waiting, the callback evicts the failed connection and no
    caller receives it. *)
Lemma callback_evicts_without_waiter c e obj p :
  is_connection_error e = true → queue p = [] → NoDup (pool p) →
  ∃ p', scanStream_callback c (Some e) obj p = (p', [], Some (Rejected e)) ∧
        (c ∉ pool p') ∧ (c ∉ inUse p').
Proof.
  intros He Hq Hnd. unfold scanStream_callback. rewrite He.
  rewrite (release_empty c p Hq). simpl. eexists. split; [reflexivity |].
  unfold removeConnection. simpl. split.
  - by apply remove_first_not_in.
  - intros H. apply elem_of_difference in H as [_ H].
    apply H. by apply elem_of_singleton.
Qed.

(** With a caller waiting, [release] runs first and resolves the promise of
    that caller with the failed connection; [removeConnection] then takes
    the connection out of the collection and of the in-use set. *)
Lemma callback_hands_failed_connection_over c e obj p w rest :
  is_connection_error e = true → queue p = w :: rest → NoDup (pool p) →
  ∃ p', scanStream_callback c (Some e) obj p =
          (p', [Resolve w c], Some (Rejected e)) ∧
        (c ∉ pool p') ∧ (c ∉ inUse p') ∧ queue p' = rest.
Proof.
  intros He Hq Hnd. unfold scanStream_callback. rewrite He.
  rewrite (release_nonempty c p w rest Hq). simpl. eexists.
  split; [reflexivity |]. unfold removeConnection. simpl. split.
  - by apply remove_first_not_in.
  - split; [| reflexivity].
    intros H. apply elem_of_difference in H as [_ H].
    apply H. by apply elem_of_singleton.
Qed.

(** C1, at the failing input: connection 3 breaks with EPIPE while caller 7
    waits in the queue. The callback resolves the promise of caller 7 with
    connection 3, then removes 3 from the collection and from the in-use
    set, and rejects the scan with the error. *)
Theorem broken_connection_reaches_waiter :
  scanStream_callback 3 (Some epipe) None busy_pool_one_waiter =
    (mkPool [1; 2; 4; 5] {[1; 2; 4; 5]} 5 [] 20 true,
     [Resolve 7 3],
     Some (Rejected epipe)).
Proof. vm_compute. reflexivity. Qed.

End Eviction.

(* ===================================================================== *)
(** ** The pool: how many connections *)
(* ===================================================================== *)

Section PoolSize.

Import Pool.

Lemma in_use_le_collection p :
  consistent p → size (inUse p) ≤ length (pool p).
Proof.
  intros [Hnd Hsub].
  rewrite <- (size_list_to_set (C := gset conn) (pool p)) by exact Hnd.
  apply subseteq_size. intros c Hc. apply elem_of_list_to_set. by apply Hsub.
Qed.

Lemma remove_first_other c x l : x ≠ c → x ∈ l → x ∈ remove_first c l.
Proof.
  intros Hne. induction l as [|y l IH]; simpl; [done |].
  intros Hin. apply elem_of_cons in Hin. destruct (decide (y = c)) as [->|Hy].
  - destruct Hin; [congruence | done].
  - destruct Hin as [-> | Hin]; [by left | right; by apply IH].
Qed.

Lemma remove_first_NoDup c l : NoDup l → NoDup (remove_first c l).
Proof.
  induction l as [|y l IH]; simpl; [done |].
  intros Hnd. apply NoDup_cons in Hnd as [Hy Hnd].
  destruct (decide (y = c)); [done |].
  apply NoDup_cons. split; [| by apply IH].
  intros H. apply Hy. by eapply remove_first_subset.
Qed.



Lemma acquire_consistent w p :
  consistent p → consistent (acquire w p).1.
Proof.
  intros [Hnd Hsub]. unfold acquire.
  destruct (List.find _ _) as [c|] eqn:Hf.
  - apply (find_idle_some p c) in Hf as [Hin _]. split; [exact Hnd |]. simpl.
    intros x Hx. apply elem_of_union in Hx as [Hx | Hx]; [| by apply Hsub].
    apply elem_of_singleton in Hx. by subst.
  - repeat case_bool_decide; by split.
Qed.

Lemma release_consistent c p :
  consistent p → c ∈ pool p → consistent (release c p).1.
Proof.
  intros [Hnd Hsub] Hc. unfold release. simpl.
  destruct (queue p); simpl; (split; [exact Hnd |]); intros x Hx.
  - apply elem_of_difference in Hx as [Hx _]. by apply Hsub.
  - apply elem_of_union in Hx as [Hx | Hx].
    + apply elem_of_singleton in Hx. by subst.
    + apply elem_of_difference in Hx as [Hx _]. by apply Hsub.
Qed.

Lemma removeConnection_consistent c p :
  consistent p → consistent (removeConnection c p).
Proof.
  intros [Hnd Hsub]. unfold removeConnection. simpl. split.
  - by apply remove_first_NoDup.
  - intros x Hx. apply elem_of_difference in Hx as [Hx Hne].
    apply remove_first_other; [| by apply Hsub].
    intros ->. apply Hne. by apply elem_of_singleton.
Qed.

Lemma created_then_consistent w c p :
  consistent p → c ∉ pool p → consistent (created_then w c p).1.
Proof.
  intros [Hnd Hsub] Hc. unfold created_then. simpl. split.
  - apply NoDup_app. split; [exact Hnd |]. split.
    + intros x Hx Hx'. apply list_elem_of_singleton in Hx'. by subst.
    + apply NoDup_singleton.
  - intros x Hx. apply elem_of_app. apply elem_of_union in Hx as [Hx | Hx].
    + right. apply elem_of_singleton in Hx. subst. by left.
    + left. by apply Hsub.
Qed.

(** Every event keeps the in-use set inside the collection. *)
Lemma step_consistent s ev s' effs :
  consistent (state s) → permitted s ev → step s ev = Some (s', effs) →
  consistent (state s').
Proof.
  intros Hc Hp. destruct ev as [w | w c | w e | c | c]; simpl.
  - intros [= <- _]. simpl. by apply acquire_consistent.
  - destruct (bool_decide (w ∈ creating s)); simpl; [| discriminate].
    case_bool_decide as Hfresh; simpl; [discriminate |].
    intros [= <- _]. exact (created_then_consistent w c _ Hc Hfresh).
  - destruct (bool_decide (w ∈ creating s)); [| discriminate].
    intros [= <- _]. exact Hc.
  - intros [= <- _]. by apply release_consistent.
  - intros [= <- _]. by apply removeConnection_consistent.
Qed.




(** C2, at the failing input: six acquire() calls reach the new pool
    (maxConnections = 5) before any creation completes. Each finds the
    collection empty and starts a creation; once the six creations have
    succeeded the collection holds six connections, all six in use. *)
Theorem concurrent_acquires_overfill_pool :
  ∃ s,
    run (mkSystem connectionPool []) six_concurrent_acquires =
      Some (s,
            [Create 1; Create 2; Create 3; Create 4; Create 5; Create 6;
             Resolve 1 101; Resolve 2 102; Resolve 3 103;
             Resolve 4 104; Resolve 5 105; Resolve 6 106]) ∧
    pool (state s) = [101; 102; 103; 104; 105; 106] ∧
    inUse (state s) = {[101; 102; 103; 104; 105; 106]} ∧
    size (inUse (state s)) = 6 ∧
    maxConnections (state s) = 5 ∧
    ¬ length (pool (state s)) ≤ maxConnections (state s).
Proof.
  eexists. split; [vm_compute; reflexivity |]. simpl.
  repeat (split; [reflexivity |]). lia.
Qed.

End PoolSize.

(* ===================================================================== *)
(** ** Connection creation and scan retries *)
(* ===================================================================== *)

Section Creation.

Import Pool.

Lemma createLoop_unfold init a :
  createLoop init a =
    if decide (a ≤ maxRetries) then
      match init a with
      | Fulfilled c => (Returned c, [Establish a])
      | Rejected e =>
          if decide (a < maxRetries) then
            ((createLoop init (S a)).1,
             Establish a :: Sleep (delay * Z.of_nat a) :: (createLoop init (S a)).2)
          else (Threw e, [Establish a])
      end
    else (FellThrough, []).
Proof.
  funelim (createLoop init a);
    repeat match goal with
           | H : decide _ = _ |- _ => rewrite H; clear H
           | H : init _ = _ |- _ => rewrite H; clear H
           end; reflexivity.
Qed.

(** From any loop index within range, the loop runs up to some index [k],
    where it returns the session or, at the last index, throws. *)
Lemma createLoop_spec init : ∀ n a,
  a + n = maxRetries → 1 ≤ a →
  ∃ k, a ≤ k ≤ maxRetries ∧
    (createLoop init a).2 = schedule_from a k ∧
    (∀ i, a ≤ i < k → ∃ e, init i = Rejected e) ∧
    ((∃ c, init k = Fulfilled c ∧ (createLoop init a).1 = Returned c) ∨
     (k = maxRetries ∧ ∃ e, init k = Rejected e ∧
        (createLoop init a).1 = Threw e)).
Proof.
  induction n as [|n IH]; intros a Ha H1; rewrite createLoop_unfold.
  - destruct (decide (a ≤ maxRetries)); [| lia].
    exists a. split; [lia |]. unfold schedule_from. rewrite Nat.sub_diag.
    destruct (init a) as [c | e] eqn:Hi.
    + simpl. split; [reflexivity |]. split; [intros; lia |]. left. eauto.
    + destruct (decide (a < maxRetries)); [lia |]. simpl.
      split; [reflexivity |]. split; [intros; lia |].
      right. split; [lia |]. eauto.
  - destruct (decide (a ≤ maxRetries)); [| lia].
    destruct (init a) as [c | e] eqn:Hi.
    + exists a. split; [lia |]. unfold schedule_from. rewrite Nat.sub_diag.
      simpl. split; [reflexivity |]. split; [intros; lia |]. left. eauto.
    + destruct (decide (a < maxRetries)); [| lia].
      destruct (IH (S a)) as (k & Hk & Ht & Hrej & Hend); [lia | lia |].
      exists k. split; [lia |]. simpl. split.
      * rewrite Ht. unfold schedule_from.
        replace (k - a) with (S (k - S a)) by lia. reflexivity.
      * split; [| exact Hend].
        intros i Hi'. destruct (decide (i = a)) as [-> | Hne]; [eauto |].
        apply Hrej. lia.
Qed.

Lemma establishments_schedule a k : a ≤ k → establishments (schedule_from a k) = S (k - a).
Proof.
  unfold establishments, schedule_from. intros Hk.
  remember (k - a) as n eqn:Hn. clear Hn Hk. revert a.
  induction n as [|n IH]; intros a; simpl; [reflexivity |].
  f_equal. apply IH.
Qed.

(** C9. Whatever the outcomes of the attempts, _createConnection makes
    [k] attempts for some [k] between 1 and 10, at loop indexes 1 to [k],
    and sleeps [delay * i] milliseconds between attempt [i] and the next;
    every attempt before the [k]-th failed; either the [k]-th succeeds and
    its session is returned, or [k] is 10 and the error of the tenth attempt
    is thrown as it is. *)
Theorem createConnection_bounded (init : nat → settled conn) :
  ∃ k, 1 ≤ k ≤ 10 ∧
    (_createConnection init).2 = schedule k ∧
    establishments (_createConnection init).2 = k ∧
    (∀ i, 1 ≤ i < k → ∃ e, init i = Rejected e) ∧
    ((∃ c, init k = Fulfilled c ∧ (_createConnection init).1 = Returned c) ∨
     (k = 10 ∧ ∃ e, init 10 = Rejected e ∧
        (_createConnection init).1 = Threw e)).
Proof.
  destruct (createLoop_spec init 9 1) as (k & Hk & Ht & Hrej & Hend);
    [reflexivity | lia |].
  unfold maxRetries in *. exists k. split; [lia |].
  unfold _createConnection, schedule. split; [exact Ht |]. split.
  - rewrite Ht, establishments_schedule by lia. lia.
  - split; [exact Hrej |].
    destruct Hend as [Hend | (-> & Hend)]; [by left | by right].
Qed.

Example schedule_3 :
  schedule 3 = [Establish 1; Sleep 3000; Establish 2; Sleep 6000; Establish 3].
Proof. reflexivity. Qed.

Example createConnection_third_attempt :
  _createConnection (λ i, if decide (i = 3) then Fulfilled 42
                          else Rejected (new_Error "connect ECONNREFUSED")) =
    (Returned 42, [Establish 1; Sleep 3000; Establish 2; Sleep 6000; Establish 3]).
Proof. reflexivity. Qed.

End Creation.

Section RetryFacts.

Import Retry.

Lemma scanFile_unfold scan size rc :
  scanFile scan size rc =
    match try_scan (scan rc) size with
    | Fulfilled r => (Fulfilled r, [Scan rc])
    | Rejected e =>
        if decide (is_connection_error e = true ∧ rc < maxRetries) then
          ((scanFile scan size (S rc)).1,
           Scan rc :: Sleep (1000 * (Z.of_nat rc + 1)) :: (scanFile scan size (S rc)).2)
        else (Rejected e, [Scan rc])
    end.
Proof.
  funelim (scanFile scan size rc);
    repeat match goal with
           | H : decide _ = _ |- _ => rewrite H; clear H
           | H : try_scan _ _ = _ |- _ => rewrite H; clear H
           end; reflexivity.
Qed.

(** From retry index [rc] on, at most [maxRetries - rc] more calls follow
    the first. *)
Lemma scanFile_attempts scan size : ∀ n rc,
  rc + n = maxRetries →
  attempts (scanFile scan size rc).2 ≤ S n.
Proof.
  unfold attempts.
  induction n as [|n IH]; intros rc Hrc; rewrite scanFile_unfold;
    destruct (try_scan _ _) as [r | e]; simpl; try lia.
  - destruct (decide _) as [[_ Hlt] | _]; simpl; [| lia].
    unfold maxRetries in *. lia.
  - destruct (decide _) as [[_ Hlt] | _]; simpl; [| lia].
    specialize (IH (S rc)). lia.
Qed.

(** C8, as stated, fails on the tag: after three EPIPE failures scanFile
    rejects with the very error of the third call, three calls were made,
    and no property of that error holds the number 3. *)
Lemma retry_error_has_no_attempt_count :
  (scanFile always_epipe 1024 0).1 = Rejected epipe ∧
  attempts (scanFile always_epipe 1024 0).2 = 3 ∧
  ¬ tagged_with_attempts epipe 3.
Proof.
  split; [reflexivity |]. split; [reflexivity |].
  intros [k Hk]. unfold epipe, new_Error in Hk.
  repeat (rewrite lookup_insert in Hk; case_decide; [discriminate |]).
  rewrite lookup_singleton in Hk. case_decide; discriminate.
Qed.

(** C8 (amended). scanFile never calls scanWithStream more than
    1 + maxRetries = 3 times; when every call fails with EPIPE or
    ECONNRESET it makes exactly the three calls, sleeping 1000 ms before the
    first retry and 2000 ms before the second, and rejects with the error of
    the third call, the same object with nothing added to it. *)
Theorem scanFile_retry_budget (scan : nat → settled ScanResult) (size : Z) :
  attempts (scanFile scan size 0).2 ≤ 1 + maxRetries ∧
  ((∀ i, i ≤ maxRetries →
      ∃ e, scan i = Rejected e ∧ is_connection_error e = true) →
   ∃ e, scan maxRetries = Rejected e ∧
     scanFile scan size 0 =
       (Rejected e, [Scan 0; Sleep 1000; Scan 1; Sleep 2000; Scan 2])).
Proof.
  split; [by apply scanFile_attempts |].
  unfold maxRetries. intros Hall.
  destruct (Hall 0) as (e0 & H0 & Hc0); [lia |].
  destruct (Hall 1) as (e1 & H1 & Hc1); [lia |].
  destruct (Hall 2) as (e2 & H2 & Hc2); [lia |].
  exists e2. split; [exact H2 |].
  rewrite (scanFile_unfold scan size 0), H0. simpl.
  destruct (decide _) as [_ | Hn]; [| exfalso; apply Hn; unfold maxRetries; split; [done | lia]].
  rewrite (scanFile_unfold scan size 1), H1. simpl.
  destruct (decide _) as [_ | Hn]; [| exfalso; apply Hn; unfold maxRetries; split; [done | lia]].
  rewrite (scanFile_unfold scan size 2), H2. simpl.
  destruct (decide _) as [[_ Hlt] | _]; [unfold maxRetries in Hlt; lia |].
  reflexivity.
Qed.

Lemma scanFile_retry_budget_witness :
  ∃ e, always_epipe 2 = Rejected e ∧
    scanFile always_epipe 1024 0 =
      (Rejected e, [Scan 0; Sleep 1000; Scan 1; Sleep 2000; Scan 2]).
Proof.
  apply (scanFile_retry_budget always_epipe 1024).
  intros i _. exists epipe. split; reflexivity.
Defined.

End RetryFacts.

(* ===================================================================== *)
(** ** Further properties of the pool *)
(* ===================================================================== *)

Section PoolRuns.

Import Pool.


Lemma step_queue_bound s ev s' effs :
  queue_within_bound (state s) → step s ev = Some (s', effs) →
  queue_within_bound (state s') ∧
  maxQueueSize (state s') = maxQueueSize (state s).
Proof.
  unfold queue_within_bound. intros Hb.
  destruct ev as [w | w c | w e | c | c]; simpl.
  - intros [= <- _]. simpl. unfold acquire.
    destruct (List.find _ _); simpl; [done |].
    repeat case_bool_decide; simpl; try done.
    rewrite length_app. simpl. split; [lia | done].
  - destruct (_ && _); [| discriminate]. by intros [= <- _].
  - destruct (bool_decide _); [| discriminate]. by intros [= <- _].
  - intros [= <- _]. simpl. unfold release. simpl.
    destruct (queue (state s)) eqn:Hq; simpl in *; rewrite ?Hq; simpl;
      (split; [lia | done]).
  - by intros [= <- _].
Qed.

(** X1. Along every run of the pool, whatever the calls and their order, the
    wait queue never holds more than maxQueueSize callers, and maxQueueSize
    itself never changes. *)
Theorem run_queue_bounded (evs : list event) (s s' : System)
  (effs : list effect) :
  queue_within_bound (state s) →
  run s evs = Some (s', effs) →
  queue_within_bound (state s') ∧
  maxQueueSize (state s') = maxQueueSize (state s).
Proof.
  revert s s' effs. induction evs as [|ev evs IH]; intros s s' effs Hb; simpl.
  - intros [= <- _]. done.
  - destruct (step s ev) as [[s1 effs1]|] eqn:Hstep; [| discriminate].
    destruct (run s1 evs) as [[s2 effs2]|] eqn:Hrun; [| discriminate].
    intros [= <- _].
    destruct (step_queue_bound s ev s1 effs1 Hb Hstep) as [Hb1 Hm1].
    destruct (IH s1 s2 effs2 Hb1 Hrun) as [Hb2 Hm2].
    split; [exact Hb2 | congruence].
Qed.

Lemma run_queue_bounded_witness :
  ∃ s' effs, run (mkSystem saturated_pool []) [Acquire 8; Release 1; Acquire 9; Acquire 10] =
               Some (s', effs) ∧
             queue (state s') = [9] ∧
             queue_within_bound (state s').
Proof.
  eexists _, _. split; [vm_compute; reflexivity |]. split; [reflexivity |].
  eapply (run_queue_bounded [Acquire 8; Release 1; Acquire 9; Acquire 10]
            (mkSystem saturated_pool [])).
  - unfold queue_within_bound. simpl. lia.
  - vm_compute. reflexivity.
Defined.




End PoolRuns.

Section PoolSafety.

Import Pool.
Import Server.

Lemma run_consistent (evs : list event) : ∀ s s' effs,
  consistent (state s) → all_permitted s evs →
  run s evs = Some (s', effs) → consistent (state s').
Proof.
  induction evs as [|ev evs IH]; intros s s' effs Hc Hp; simpl.
  - intros [= <- _]. done.
  - destruct Hp as [Hp Hrest].
    destruct (step s ev) as [[s1 effs1]|] eqn:Hstep; [| discriminate].
    destruct (run s1 evs) as [[s2 effs2]|] eqn:Hrun; [| discriminate].
    intros [= <- _]. apply (IH s1 s2 effs2).
    + eapply step_consistent; eauto.
    + exact (Hrest s1 effs1 eq_refl).
    + exact Hrun.
Qed.

(** X3. Along every run in which each release is of a connection still in
    the collection, also when calls of acquire() overlap creations, every
    connection in use is in the collection and the collection holds no
    connection twice; so the health route never reports more connections
    in use than the pool size. *)
Theorem health_in_use_within_pool_size (evs : list event) (s s' : System)
  (effs : list effect) :
  consistent (state s) → all_permitted s evs →
  run s evs = Some (s', effs) →
  consistent (state s') ∧
  connectionsInUse (get_health (state s')) ≤ poolSize (get_health (state s')).
Proof.
  intros Hc Hp Hrun.
  assert (Hc' : consistent (state s')) by (eapply run_consistent; eauto).
  split; [exact Hc' |]. simpl. by apply in_use_le_collection.
Qed.

Lemma health_in_use_within_pool_size_witness :
  ∃ s' effs, run (mkSystem connectionPool []) six_concurrent_acquires =
               Some (s', effs) ∧
             connectionsInUse (get_health (state s')) ≤
               poolSize (get_health (state s')).
Proof.
  eexists _, _. split; [vm_compute; reflexivity |].
  eapply (health_in_use_within_pool_size six_concurrent_acquires
            (mkSystem connectionPool [])).
  - split; [apply NoDup_nil_2 |]. intros c Hc. simpl in Hc.
    by apply not_elem_of_empty in Hc.
  - simpl. repeat (split; [exact I |]; intros ? ? _). exact I.
  - vm_compute. reflexivity.
Defined.

Lemma resolve_origin (s s' : System) (ev : event)
  (effs : list effect) (w : waiter) (c : conn) :
  step s ev = Some (s', effs) →
  Resolve w c ∈ effs →
  c ∈ inUse (state s') ∧
  ((ev = Acquire w ∧ c ∈ pool (state s) ∧ c ∉ inUse (state s)) ∨
   (ev = Created w c ∧ c ∉ pool (state s)) ∨
   (ev = Release c ∧ ∃ rest, queue (state s) = w :: rest)).
Proof.
  destruct ev as [w0 | w0 c0 | w0 e | c0 | c0]; simpl.
  - intros [= <- <-]. unfold acquire.
    destruct (List.find _ _) as [c1|] eqn:Hf; simpl.
    + intros Hin. apply list_elem_of_singleton in Hin. injection Hin as -> ->.
      apply (find_idle_some (state s) c1) in Hf as [Hp Hu].
      split; [apply elem_of_union; left; by apply elem_of_singleton |].
      left. done.
    + repeat case_bool_decide; simpl; intros Hin.
      * apply list_elem_of_singleton in Hin. discriminate.
      * apply list_elem_of_singleton in Hin. discriminate.
      * by apply not_elem_of_nil in Hin.
  - destruct (bool_decide (w0 ∈ creating s)); simpl; [| discriminate].
    case_bool_decide as Hfresh; simpl; [discriminate |].
    intros [= <- <-]. simpl. intros Hin.
    apply list_elem_of_singleton in Hin. injection Hin as -> ->.
    split; [apply elem_of_union; left; by apply elem_of_singleton |].
    right. left. done.
  - destruct (bool_decide _); [| discriminate].
    intros [= <- <-]. simpl. intros Hin.
    apply list_elem_of_singleton in Hin. discriminate.
  - intros [= <- <-]. unfold release. simpl.
    destruct (queue (state s)) as [|w1 rest] eqn:Hq; simpl; intros Hin.
    + by apply not_elem_of_nil in Hin.
    + apply list_elem_of_singleton in Hin. injection Hin as -> ->.
      split; [apply elem_of_union; left; by apply elem_of_singleton |].
      right. right. split; [done |]. by exists rest.
  - intros [= <- <-] Hin. by apply not_elem_of_nil in Hin.
Qed.

(** X4. A call hands a connection to a caller only in three ways: acquire()
    gives a connection of the collection that was not in use, the
    completion of a creation gives the session just created, which was not
    in the collection, and release() passes on the connection being
    released. In each case the connection is in the in-use set
    afterwards. *)
Theorem handed_connection_was_free (s s' : System) (ev : event)
  (effs : list effect) (w : waiter) (c : conn) :
  step s ev = Some (s', effs) →
  Resolve w c ∈ effs →
  c ∈ inUse (state s') ∧
  ((ev = Acquire w ∧ c ∈ pool (state s) ∧ c ∉ inUse (state s)) ∨
   (ev = Created w c ∧ c ∉ pool (state s)) ∨
   (ev = Release c ∧ ∃ rest, queue (state s) = w :: rest)).
Proof. apply resolve_origin. Qed.

Lemma handed_connection_was_free_witness :
  (2 ∈ pool half_busy_pool) ∧ (2 ∉ inUse half_busy_pool) ∧
  (2 ∈ inUse (acquire 9 half_busy_pool).1).
Proof.
  destruct (handed_connection_was_free (mkSystem half_busy_pool [])
              (mkSystem (acquire 9 half_busy_pool).1 []) (Acquire 9)
              [Resolve 9 2] 9 2) as [Hin [(_ & Hp & Hu) | [(H & _) | (H & _)]]].
  - reflexivity.
  - by apply list_elem_of_singleton.
  - split; [exact Hp |]. split; [exact Hu | exact Hin].
  - discriminate.
  - discriminate.
Defined.

(** X5. removeConnection takes the connection out of the collection and out
    of the in-use set and touches nothing else: every other connection
    keeps its place and its in-use mark, the queue is unchanged, the
    collection is one shorter when the connection was in it and unchanged
    when it was not. *)
Theorem removeConnection_evicts_only_that (c : conn) (p : ClamAVConnectionPool) :
  NoDup (pool p) →
  (c ∉ pool (removeConnection c p)) ∧
  (c ∉ inUse (removeConnection c p)) ∧
  (∀ x, x ≠ c →
     (x ∈ pool (removeConnection c p) ↔ x ∈ pool p) ∧
     (x ∈ inUse (removeConnection c p) ↔ x ∈ inUse p)) ∧
  (c ∈ pool p → S (length (pool (removeConnection c p))) = length (pool p)) ∧
  (c ∉ pool p → pool (removeConnection c p) = pool p) ∧
  queue (removeConnection c p) = queue p ∧
  maxConnections (removeConnection c p) = maxConnections p.
Proof.
  intros Hnd. unfold removeConnection. simpl.
  split; [by apply remove_first_not_in |]. split.
  { intros H. apply elem_of_difference in H as [_ H].
    apply H. by apply elem_of_singleton. }
  split.
  { intros x Hne. split.
    - split; [apply remove_first_subset | by apply remove_first_other].
    - rewrite elem_of_difference, elem_of_singleton. tauto. }
  split.
  { clear Hnd. induction (pool p) as [|y l IH]; simpl; intros Hin.
    - by apply not_elem_of_nil in Hin.
    - destruct (decide (y = c)); [done |].
      apply elem_of_cons in Hin as [-> | Hin]; [congruence |].
      simpl. by rewrite IH. }
  split; [| done].
  clear Hnd. induction (pool p) as [|y l IH]; simpl; intros Hin; [done |].
  destruct (decide (y = c)) as [-> | Hy].
  - exfalso. apply Hin. by left.
  - f_equal. apply IH. intros H. apply Hin. by right.
Qed.

Lemma removeConnection_evicts_only_that_witness :
  pool (removeConnection 3 busy_pool_one_waiter) = [1; 2; 4; 5] ∧
  S (length (pool (removeConnection 3 busy_pool_one_waiter))) =
    length (pool busy_pool_one_waiter).
Proof.
  destruct (removeConnection_evicts_only_that 3 busy_pool_one_waiter)
    as (_ & _ & _ & Hlen & _).
  - apply (bool_decide_unpack (NoDup (pool busy_pool_one_waiter))).
    vm_compute. exact I.
  - split; [reflexivity |]. apply Hlen.
    do 2 right. by left.
Defined.

(** X6. After a connection has been evicted from a collection that was
    within maxConnections and had every connection busy, the next acquire()
    starts the creation of a replacement; it does so even while callers
    wait in the queue, and these stay queued. *)
Theorem acquire_after_eviction_creates (w : waiter) (c : conn)
  (p : ClamAVConnectionPool) :
  NoDup (pool p) →
  c ∈ pool p →
  (∀ x, x ∈ pool p → x ∈ inUse p) →
  length (pool p) ≤ maxConnections p →
  acquire w (removeConnection c p) = (removeConnection c p, [Create w]) ∧
  queue (removeConnection c p) = queue p.
Proof.
  intros Hnd Hc Hbusy Hfull.
  destruct (removeConnection_evicts_only_that c p Hnd)
    as (Hgone & _ & Hother & Hlen & _ & Hq & Hmax).
  split; [| exact Hq]. unfold acquire.
  rewrite find_idle_none.
  - rewrite bool_decide_eq_true_2; [reflexivity |].
    rewrite Hmax. specialize (Hlen Hc). lia.
  - intros x Hx.
    assert (x ≠ c) by (intros ->; done).
    apply (Hother x); [done |]. apply Hbusy. by apply (Hother x).
Qed.

Lemma acquire_after_eviction_creates_witness :
  acquire 8 (removeConnection 3 busy_pool_one_waiter) =
    (removeConnection 3 busy_pool_one_waiter, [Create 8]) ∧
  queue (removeConnection 3 busy_pool_one_waiter) = [7].
Proof.
  apply (acquire_after_eviction_creates 8 3 busy_pool_one_waiter).
  - apply (bool_decide_unpack (NoDup (pool busy_pool_one_waiter))).
    vm_compute. exact I.
  - do 2 right. by left.
  - intros x Hx. simpl in *. rewrite !elem_of_union, !elem_of_singleton.
    rewrite !elem_of_cons in Hx.
    destruct Hx as [-> | [-> | [-> | [-> | [-> | Hx]]]]]; try tauto.
    by apply not_elem_of_nil in Hx.
  - simpl. lia.
Defined.

End PoolSafety.

Section PoolReadiness.

Import Pool.
Import Server.

Lemma step_initialized s ev s' effs :
  initialized (state s) = true → step s ev = Some (s', effs) →
  initialized (state s') = true.
Proof.
  intros Hi. destruct ev as [w | w c | w e | c | c]; simpl.
  - intros [= <- _]. simpl. unfold acquire.
    destruct (List.find _ _); [done |]. by repeat case_bool_decide.
  - destruct (_ && _); [| discriminate]. by intros [= <- _].
  - destruct (bool_decide _); [| discriminate]. by intros [= <- _].
  - intros [= <- _]. simpl. unfold release. simpl. by destruct (queue _).
  - by intros [= <- _].
Qed.

(** X7. Once the pool has been initialized, isReady() stays true along
    every run, also after every connection has been evicted and the
    collection is empty: no method of the pool clears the flag. *)
Theorem isReady_never_reverts (evs : list event) (s s' : System)
  (effs : list effect) :
  initialized (state s) = true →
  run s evs = Some (s', effs) →
  initialized (state s') = true ∧ isReady (state s') = true.
Proof.
  revert s s' effs. induction evs as [|ev evs IH]; intros s s' effs Hi; simpl.
  - intros [= <- _]. unfold isReady. by rewrite Hi.
  - destruct (step s ev) as [[s1 effs1]|] eqn:Hstep; [| discriminate].
    destruct (run s1 evs) as [[s2 effs2]|] eqn:Hrun; [| discriminate].
    intros [= <- _]. apply (IH s1 s2 effs2); [| exact Hrun].
    eapply step_initialized; eauto.
Qed.

Lemma isReady_never_reverts_witness :
  ∃ s' effs, run (mkSystem single_busy_pool []) [Remove 1] = Some (s', effs) ∧
             pool (state s') = [] ∧ isReady (state s') = true.
Proof.
  eexists _, _. split; [vm_compute; reflexivity |]. split; [reflexivity |].
  eapply proj2.
  eapply (isReady_never_reverts [Remove 1] (mkSystem single_busy_pool [])).
  - reflexivity.
  - vm_compute. reflexivity.
Defined.

(** X8. When a scan ends without error, or with an error that is neither
    EPIPE nor ECONNRESET (a timeout for instance), the connection stays in
    the collection; with nobody waiting it becomes idle, and if the other
    connections are busy the next acquire() gets that same connection at
    once, without a creation. *)
Theorem scan_end_keeps_connection (c : conn) (err : option Error)
  (object : option response) (p : ClamAVConnectionPool) (w : waiter) :
  (∀ e, err = Some e → is_connection_error e = false) →
  pool (scanStream_callback c err object p).1.1 = pool p ∧
  (queue p = [] → c ∈ pool p → (∀ x, x ∈ pool p → x ≠ c → x ∈ inUse p) →
     (c ∉ inUse (scanStream_callback c err object p).1.1) ∧
     (acquire w (scanStream_callback c err object p).1.1).2 = [Resolve w c]).
Proof.
  intros Herr.
  assert (Hp : (scanStream_callback c err object p).1.1 = (release c p).1).
  { unfold scanStream_callback. destruct err as [e|]; [| reflexivity].
    by rewrite (Herr e eq_refl). }
  rewrite Hp. split.
  - unfold release. simpl. by destruct (queue p).
  - intros Hq Hc Hbusy. rewrite (release_empty c p Hq). simpl. split.
    + intros H. apply elem_of_difference in H as [_ H].
      apply H. by apply elem_of_singleton.
    + unfold acquire. simpl.
      assert (Hf : List.find (λ x, negb (bool_decide (x ∈ inUse p ∖ {[c]})))
                     (pool p) = Some c).
      { clear Hq. induction (pool p) as [|y l IH]; simpl.
        - by apply not_elem_of_nil in Hc.
        - destruct (decide (y = c)) as [-> | Hy].
          + rewrite bool_decide_eq_false_2; [reflexivity |].
            intros H. apply elem_of_difference in H as [_ H].
            apply H. by apply elem_of_singleton.
          + rewrite bool_decide_eq_true_2.
            * simpl. apply IH.
              -- apply elem_of_cons in Hc as [-> | Hc]; [congruence | done].
              -- intros x Hx. apply Hbusy. by right.
            * apply elem_of_difference. split.
              -- apply Hbusy; [by left | done].
              -- intros H. apply elem_of_singleton in H. done. }
      rewrite Hf. reflexivity.
Qed.

Lemma scan_end_keeps_connection_witness :
  pool (scanStream_callback 1 (Some etimedout) None single_busy_pool).1.1 = [1] ∧
  (acquire 9 (scanStream_callback 1 (Some etimedout) None single_busy_pool).1.1).2 =
    [Resolve 9 1].
Proof.
  destruct (scan_end_keeps_connection 1 (Some etimedout) None single_busy_pool 9)
    as [Hp Hidle].
  - intros e [= <-]. reflexivity.
  - split; [exact Hp |]. apply Hidle.
    + reflexivity.
    + by left.
    + intros x Hx Hne. simpl in Hx. apply list_elem_of_singleton in Hx. done.
Defined.

(** X9. initClamScan never rejects. When its creation succeeds, the pool
    is ready and holds one more connection, which is idle: if the pool had
    no idle connection, the first acquire() gets the warm-up connection at
    once, without another creation. When the creation fails after its ten
    attempts, the pool is left as it was. *)
Theorem initClamScan_warms_up (init : nat → settled conn)
  (p : ClamAVConnectionPool) (w : waiter) :
  (initClamScan init p).2 = Fulfilled tt ∧
  (∀ c, (_createConnection init).1 = Returned c →
     pool (initClamScan init p).1 = pool p ++ [c] ∧
     inUse (initClamScan init p).1 = inUse p ∧
     isReady (initClamScan init p).1 = true ∧
     ((∀ x, x ∈ pool p → x ∈ inUse p) → c ∉ inUse p →
        (acquire w (initClamScan init p).1).2 = [Resolve w c])) ∧
  (∀ e, (_createConnection init).1 = Threw e → (initClamScan init p).1 = p).
Proof.
  unfold initClamScan. split; [by destruct (_createConnection init).1 |].
  split.
  - intros c ->. simpl. repeat (split; [reflexivity |]).
    intros Hbusy Hc. unfold acquire. simpl.
    assert (Hf : List.find (λ x, negb (bool_decide (x ∈ inUse p)))
                   (pool p ++ [c]) = Some c).
    { induction (pool p) as [|y l IH]; simpl.
      - by rewrite bool_decide_eq_false_2.
      - rewrite bool_decide_eq_true_2 by (apply Hbusy; by left). simpl.
        apply IH. intros x Hx. apply Hbusy. by right. }
    rewrite Hf. reflexivity.
  - intros e ->. reflexivity.
Qed.

Lemma initClamScan_warms_up_witness :
  (_createConnection third_attempt_succeeds).1 = Returned 42 ∧
  pool (initClamScan third_attempt_succeeds connectionPool).1 = [42] ∧
  (acquire 9 (initClamScan third_attempt_succeeds connectionPool).1).2 =
    [Resolve 9 42] ∧
  (initClamScan never_reachable connectionPool).1 = connectionPool.
Proof.
  split; [reflexivity |].
  destruct (initClamScan_warms_up third_attempt_succeeds connectionPool 9)
    as (_ & Hok & _).
  destruct (Hok 42 eq_refl) as (Hp & _ & _ & Hacq).
  split; [exact Hp |]. split.
  - apply Hacq.
    + intros x Hx. by apply not_elem_of_nil in Hx.
    + apply not_elem_of_empty.
  - destruct (initClamScan_warms_up never_reachable connectionPool 9)
      as (_ & _ & Hfail).
    apply (Hfail (new_Error "connect ECONNREFUSED 127.0.0.1:4000")).
    reflexivity.
Defined.

End PoolReadiness.

(* ===================================================================== *)
(** ** Further properties of scanFile *)
(* ===================================================================== *)

Section RetrySteps.

(** One turn of scanFile, under a name that the import of [Retry] leaves
    free. *)
Lemma scanFile_step scan size rc :
  Retry.scanFile scan size rc =
    match Retry.try_scan (scan rc) size with
    | Fulfilled r => (Fulfilled r, [Retry.Scan rc])
    | Rejected e =>
        if decide (is_connection_error e = true ∧ rc < Retry.maxRetries) then
          ((Retry.scanFile scan size (S rc)).1,
           Retry.Scan rc :: Retry.Sleep (1000 * (Z.of_nat rc + 1))
             :: (Retry.scanFile scan size (S rc)).2)
        else (Rejected e, [Retry.Scan rc])
    end.
Proof. exact (scanFile_unfold scan size rc). Qed.

End RetrySteps.

Section RetryOutcomes.

Import Retry.

Lemma scanFile_runs_to scan size k : ∀ j rc,
  rc + j = k → k ≤ maxRetries →
  (∀ i, rc ≤ i < k → ∃ e, scan i = Rejected e ∧ is_connection_error e = true) →
  (k < maxRetries →
     ∀ e, try_scan (scan k) size = Rejected e → is_connection_error e = false) →
  scanFile scan size rc = (try_scan (scan k) size, retry_schedule_from rc k).
Proof.
  induction j as [|j IH]; intros rc Hrc Hk Hconn Hlast;
    rewrite scanFile_step; unfold retry_schedule_from.
  - assert (rc = k) by lia. subst rc. rewrite Nat.sub_diag. simpl.
    destruct (try_scan (scan k) size) as [r | e] eqn:Ht; [reflexivity |].
    destruct (decide _) as [[He Hlt] | _]; [| reflexivity].
    assert (is_connection_error e = false)
      by (apply (Hlast Hlt); first [exact Ht | reflexivity]).
    congruence.
  - destruct (Hconn rc) as (e & He & Hc); [lia |].
    rewrite He. simpl.
    destruct (decide _) as [_ | Hn]; [| exfalso; apply Hn; split; [done | lia]].
    rewrite (IH (S rc)); [| lia | done | intros i Hi; apply Hconn; lia | done].
    simpl. unfold retry_schedule_from.
    replace (k - rc) with (S (k - S rc)) by lia. reflexivity.
Qed.

(** X10. scanFile returns what its first call that does not end in a
    connection error gives, or what its third call gives: when the calls at
    retry indexes below [k] fail with EPIPE or ECONNRESET and the call at
    index [k] is the third one or does not fail that way, the outcome is
    that of the call at index [k] (a result with the file size attached, the
    UNKNOWN COMMAND error for a fallback result, or the error of the call),
    after [k] sleeps of 1000, 2000, ... milliseconds. An error that is not
    a connection error is never retried. *)
Theorem scanFile_first_final_outcome (scan : nat → settled ScanResult)
  (size : Z) (k : nat) :
  k ≤ maxRetries →
  (∀ i, i < k → ∃ e, scan i = Rejected e ∧ is_connection_error e = true) →
  (k < maxRetries →
     ∀ e, try_scan (scan k) size = Rejected e → is_connection_error e = false) →
  scanFile scan size 0 = (try_scan (scan k) size, retry_schedule k).
Proof.
  intros Hk Hconn Hlast. apply (scanFile_runs_to scan size k k 0); try done.
  intros i Hi. apply Hconn. lia.
Qed.

Lemma scanFile_first_final_outcome_witness :
  scanFile epipe_then_clean 2048 0 =
    (Fulfilled (mkFileResult (mkScanResult JNull [] "clamdscan (stream)"
                                clean_response false) 2048),
     [Scan 0; Sleep 1000; Scan 1]).
Proof.
  apply (scanFile_first_final_outcome epipe_then_clean 2048 1).
  - unfold maxRetries. lia.
  - intros i Hi. assert (i = 0) by lia. subst i.
    exists epipe. split; reflexivity.
  - intros _ e He. discriminate.
Defined.

Lemma scanFile_outcome_from scan size : ∀ n rc,
  rc + n = maxRetries →
  match (scanFile scan size rc).1 with
  | Fulfilled fr =>
      ∃ k, rc ≤ k ≤ maxRetries ∧ scan k = Fulfilled (result fr) ∧
           needsFallback (result fr) = false ∧
           resultString (rawResult (result fr)) ≠ JStr "UNKNOWN COMMAND" ∧
           fileSize fr = size
  | Rejected e =>
      ∃ k, rc ≤ k ≤ maxRetries ∧
           (scan k = Rejected e ∨
            (e = new_Error unknown_command_message ∧
             ∃ r, scan k = Fulfilled r ∧
                  (needsFallback r = true ∨
                   resultString (rawResult r) = JStr "UNKNOWN COMMAND")))
  end.
Proof.
  assert (Htry : ∀ rc,
    match try_scan (scan rc) size with
    | Fulfilled fr =>
        scan rc = Fulfilled (result fr) ∧ needsFallback (result fr) = false ∧
        resultString (rawResult (result fr)) ≠ JStr "UNKNOWN COMMAND" ∧
        fileSize fr = size
    | Rejected e =>
        scan rc = Rejected e ∨
        (e = new_Error unknown_command_message ∧
         ∃ r, scan rc = Fulfilled r ∧
              (needsFallback r = true ∨
               resultString (rawResult r) = JStr "UNKNOWN COMMAND"))
    end).
  { intros rc. unfold try_scan. destruct (scan rc) as [r | e]; [| by left].
    destruct (needsFallback r) eqn:Hn; simpl.
    - right. split; [done |]. exists r. split; [done | by left].
    - destruct (is_str _ _) eqn:Hs.
      + right. split; [done |]. exists r. split; [done |].
        right. by apply is_str_true.
      + simpl. repeat split; try done.
        intros H. apply is_str_true in H. congruence. }
  induction n as [|n IH]; intros rc Hrc; rewrite scanFile_step;
    specialize (Htry rc); destruct (try_scan (scan rc) size) as [fr | e]; simpl.
  - exists rc. split; [lia | done].
  - destruct (decide _) as [[_ Hlt] | _]; [lia |]. simpl.
    exists rc. split; [lia | done].
  - exists rc. split; [lia | done].
  - destruct (decide _) as [[_ Hlt] | _]; simpl.
    + specialize (IH (S rc)).
      destruct (scanFile scan size (S rc)).1 as [fr | e'].
      * destruct IH as (k & Hk & H); [lia |]. exists k. split; [lia | done].
      * destruct IH as (k & Hk & H); [lia |]. exists k. split; [lia | done].
    + exists rc. split; [lia | done].
Qed.

(** X11. Whatever scanFile returns comes from one of its at most three
    calls of scanWithStream: a result is the result of one of the calls,
    with the file size attached, and it never has needsFallback set nor an
    UNKNOWN COMMAND answer; an error is the error of one of the calls, or
    the UNKNOWN COMMAND error raised for a result of one of the calls that
    asks for the fallback. *)
Theorem scanFile_outcome_origin (scan : nat → settled ScanResult) (size : Z) :
  match (scanFile scan size 0).1 with
  | Fulfilled fr =>
      ∃ k, k ≤ 2 ∧ scan k = Fulfilled (result fr) ∧
           needsFallback (result fr) = false ∧
           resultString (rawResult (result fr)) ≠ JStr "UNKNOWN COMMAND" ∧
           fileSize fr = size
  | Rejected e =>
      ∃ k, k ≤ 2 ∧
           (scan k = Rejected e ∨
            (e = new_Error unknown_command_message ∧
             ∃ r, scan k = Fulfilled r ∧
                  (needsFallback r = true ∨
                   resultString (rawResult r) = JStr "UNKNOWN COMMAND")))
  end.
Proof.
  pose proof (scanFile_outcome_from scan size 2 0 eq_refl) as H.
  destruct (scanFile scan size 0).1 as [fr | e];
    destruct H as (k & Hk & H); exists k; (split; [unfold maxRetries in Hk; lia | done]).
Qed.

End RetryOutcomes.

(* ===================================================================== *)
(** ** Further properties of the interpretation *)
(* ===================================================================== *)

Section VerdictValues.

Import Interp.

(** X12. For a response that is not the UNKNOWN COMMAND answer and carries
    none of the three markers, the verdict is falsy but it is the boolean
    false only when the file field is truthy: otherwise it is the value of
    the file field itself, so [null] for a file field that is [null] and
    [undefined] for one that is absent. No generic label is added. *)
Theorem clean_verdict_is_file_field (o : response) :
  not_unknown_command o →
  ¬ (flag_indicates_infection o ∨ name_field_nonempty o ∨ file_has_marker o) →
  ∃ r, interpret (Some o) = Some r ∧
    truthy (isInfected r) = false ∧
    isInfected r = (if truthy (r_file o) then JBool false else r_file o) ∧
    (r_file o = JNull → isInfected r = JNull) ∧
    (r_file o = JUndefined → isInfected r = JUndefined) ∧
    viruses r = extract_viruses o.
Proof.
  intros Hn Hnone. eexists. split; [by apply interpret_normal |]. simpl.
  assert (Hf : isInfectedFlag o = false).
  { destruct (isInfectedFlag o) eqn:E; [| done].
    exfalso. apply Hnone. left. by apply isInfectedFlag_iff. }
  assert (Hv : truthy (hasViruses o) = false).
  { destruct (truthy (hasViruses o)) eqn:E; [| done].
    exfalso. apply Hnone. right. left. by apply hasViruses_iff. }
  assert (Hm : truthy (hasVirusInName o) = false).
  { destruct (truthy (hasVirusInName o)) eqn:E; [| done].
    exfalso. apply Hnone. right. right. by apply hasVirusInName_iff. }
  assert (Ht : truthy (infection o) = false).
  { by rewrite truthy_infection, Hf, Hv, Hm. }
  assert (Hval : infection o =
                 if truthy (r_file o) then JBool false else r_file o).
  { unfold infection, js_or. rewrite Hf. simpl. rewrite Hv.
    revert Hm. unfold hasVirusInName, js_and.
    destruct (truthy (r_file o)) eqn:Efile; simpl; rewrite ?Efile; [| done].
    destruct (isString (r_file o)); simpl; [| done].
    by intros ->. }
  split; [exact Ht |]. split; [exact Hval |]. split.
  { intros Hnull. rewrite Hval, Hnull. reflexivity. }
  split.
  { intros Hu. rewrite Hval, Hu. reflexivity. }
  unfold final_viruses. by rewrite Ht.
Qed.

Lemma clean_verdict_is_file_field_witness :
  ∃ r, interpret (Some clean_response) = Some r ∧ isInfected r = JNull.
Proof.
  destruct (clean_verdict_is_file_field clean_response)
    as (r & Hr & _ & _ & Hnull & _).
  - discriminate.
  - intros [H | [H | H]].
    + destruct H as [H | [H | [H | H]]]; discriminate.
    + destruct H as [(l & H & Hl) | [(l & H & _) | (s & H & _)]];
        try discriminate.
      injection H as <-. done.
    + destruct H as (s & H & _). discriminate.
  - exists r. split; [exact Hr |]. by apply Hnull.
Defined.

(** X13. For an answer in the shape the library gives (flag a boolean or
    null, viruses an array, file null, no virus field), other than UNKNOWN
    COMMAND: the verdict is infected exactly when the flag is true or the
    array is non-empty; the names are the array itself when it is
    non-empty, the one generic label when the array is empty and the flag
    is true, and nothing otherwise; a result that is not infected has an
    empty list and the verdict [null]. *)
Theorem library_shape_result (o : response) (l : list jsval) :
  not_unknown_command o →
  library_shape o l →
  ∃ r, interpret (Some o) = Some r ∧
    (truthy (isInfected r) = true ↔ r_isInfected o = JBool true ∨ l ≠ []) ∧
    (l ≠ [] → isInfected r = JBool true ∧ viruses r = l) ∧
    (l = [] → r_isInfected o = JBool true →
       isInfected r = JBool true ∧ viruses r = [JStr "Threat detected"]) ∧
    (truthy (isInfected r) = false → isInfected r = JNull ∧ viruses r = []).
Proof.
  intros Hn (Hvs & Hv & Hinf & Hfile & Hflag).
  eexists. split; [by apply interpret_normal |]. simpl.
  assert (Hx : extract_viruses o = l).
  { unfold extract_viruses, js_and. by rewrite Hvs. }
  assert (Hi : infection o =
               if isInfectedFlag o then JBool true
               else if negb (Nat.eqb (length l) 0) then JBool true else JNull).
  { unfold infection, hasViruses, hasVirusInName, js_or, js_and.
    rewrite Hvs, Hv, Hfile. simpl.
    destruct (isInfectedFlag o); [done |]. simpl.
    by destruct (negb (Nat.eqb (length l) 0)). }
  assert (Hfl : isInfectedFlag o = true ↔ r_isInfected o = JBool true).
  { rewrite isInfectedFlag_iff. unfold flag_indicates_infection. rewrite Hinf.
    split; [| tauto].
    intros [H | [H | [H | H]]]; [done | | | discriminate];
      destruct Hflag as [Hf | [b Hf]]; congruence. }
  unfold final_viruses. rewrite Hx, Hi.
  destruct (isInfectedFlag o) eqn:Ef; simpl.
  - assert (Ht : r_isInfected o = JBool true) by by apply Hfl.
    split; [split; [by left | done] |].
    split; [intros Hl; split; [done |]; by destruct l |].
    split; [by intros -> _ |]. discriminate.
  - assert (Hnt : r_isInfected o ≠ JBool true).
    { intros H. apply Hfl in H. discriminate. }
    destruct l as [|v l]; simpl.
    + split; [split; [discriminate | intros [H | H]; done] |].
      split; [done |]. split; [intros _ H; done | done].
    + split; [split; [by right | done] |].
      split; [done |]. split; [discriminate | discriminate].
Qed.

Lemma library_shape_result_witness :
  ∃ r, interpret (Some eicar_response) = Some r ∧
       isInfected r = JBool true ∧
       viruses r = [JStr "Eicar-Test-Signature"].
Proof.
  destruct (library_shape_result eicar_response [JStr "Eicar-Test-Signature"])
    as (r & Hr & _ & Hne & _).
  - discriminate.
  - repeat (split; [reflexivity |]). right. by exists true.
  - exists r. split; [exact Hr |]. apply Hne. discriminate.
Defined.

End VerdictValues.

Section MarkerNames.

Import Interp.

Lemma trimStart_head s : head_is_space (trimStart s) = false.
Proof.
  induction s as [|c s IH]; simpl; [done |].
  destruct (is_space c) eqn:E; [exact IH | simpl; exact E].
Qed.

Lemma trimEnd_last s : last_is_space (trimEnd s) = false.
Proof.
  induction s as [|c s IH]; simpl; [done |].
  destruct (trimEnd s) as [|d t] eqn:E.
  - destruct (is_space c) eqn:Ec; simpl; [done | exact Ec].
  - exact IH.
Qed.

Lemma trimEnd_head s : head_is_space s = false → head_is_space (trimEnd s) = false.
Proof.
  destruct s as [|c s]; simpl; [done |]. intros Hc.
  destruct (trimEnd s); [rewrite Hc |]; simpl; exact Hc.
Qed.

Lemma trimStart_single_line s :
  has_line_terminator s = false → has_line_terminator (trimStart s) = false.
Proof.
  induction s as [|c s IH]; simpl; [done |].
  intros H. apply orb_false_iff in H as [Hc Hs].
  destruct (is_space c); [by apply IH | simpl; by rewrite Hc, Hs].
Qed.

Lemma trimEnd_single_line s :
  has_line_terminator s = false → has_line_terminator (trimEnd s) = false.
Proof.
  induction s as [|c s IH]; simpl; [done |].
  intros H. apply orb_false_iff in H as [Hc Hs]. specialize (IH Hs).
  destruct (trimEnd s) as [|d t].
  - destruct (is_space c); simpl; [done | by rewrite Hc].
  - simpl in *. by rewrite Hc, IH.
Qed.

Lemma dot_run_single_line s : has_line_terminator (dot_run s) = false.
Proof.
  induction s as [|c s IH]; simpl; [done |].
  destruct (is_line_terminator c) eqn:E; simpl; [done | by rewrite E, IH].
Qed.

Lemma dot_plus_single_line s g :
  dot_plus s = Some g → has_line_terminator g = false ∧ g ≠ "".
Proof.
  unfold dot_plus. pose proof (dot_run_single_line s) as H.
  destruct (dot_run s); [discriminate |]. intros [= <-]. done.
Qed.

Lemma spaces_then_capture_single_line s g :
  spaces_then_capture s = Some g → has_line_terminator g = false ∧ g ≠ "".
Proof.
  induction s as [|c s IH]; simpl.
  - apply dot_plus_single_line.
  - destruct (is_space c).
    + destruct (spaces_then_capture s) as [g'|].
      * intros [= <-]. by apply IH.
      * apply (dot_plus_single_line (String c s)).
    + apply (dot_plus_single_line (String c s)).
Qed.

(** The capture of the pattern is never empty and stays on one line. *)
Lemma match_FOUND_single_line s g :
  match_FOUND s = Some g → has_line_terminator g = false ∧ g ≠ "".
Proof.
  assert (Hhere : ∀ t, match_here t = Some g →
                       has_line_terminator g = false ∧ g ≠ "").
  { intros t. unfold match_here. destruct (match_literal_i _ _); [| discriminate].
    apply spaces_then_capture_single_line. }
  induction s as [|c s IH].
  - intros H. vm_compute in H. discriminate.
  - rewrite match_FOUND_cons. destruct (match_here (String c s)) eqn:E.
    + intros [= <-]. by apply (Hhere (String c s)).
    + exact IH.
Qed.

(** X14. When the threat name is taken from the file field (a response
    other than UNKNOWN COMMAND, without flag or name field, whose file
    field carries a marker and matches FOUND:\s*(.+)), the one name
    reported is the capture trimmed: it has no white space at either end
    and no line break inside. *)
Theorem marker_name_is_trimmed (o : response) (s g : string) :
  not_unknown_command o →
  isInfectedFlag o = false →
  truthy (r_viruses o) = false →
  truthy (r_virus o) = false →
  r_file o = JStr s →
  file_has_marker o →
  match_FOUND s = Some g →
  ∃ r, interpret (Some o) = Some r ∧
    viruses r = [JStr (trim g)] ∧
    head_is_space (trim g) = false ∧
    last_is_space (trim g) = false ∧
    has_line_terminator (trim g) = false.
Proof.
  intros Hn Hf Hvs Hv Hfile Hm Hg.
  assert (Hi : infection o = JBool true) by (apply infection_iff; tauto).
  assert (Hname : hasVirusInName o = JBool true).
  { apply hasVirusInName_true. by apply hasVirusInName_iff. }
  assert (Hs : truthy (JStr s) = true).
  { destruct Hm as (s' & Hs' & Hinc). rewrite Hfile in Hs'. injection Hs' as <-.
    simpl. apply eqb_empty_false.
    destruct Hinc; eapply includes_nonempty; eauto; discriminate. }
  eexists. split; [by apply interpret_normal |]. simpl. split.
  - unfold final_viruses, extract_viruses.
    rewrite truthy_js_and, Hvs, Hv, Hname, Hfile, Hi. simpl in *.
    rewrite Hs, Hg. reflexivity.
  - destruct (match_FOUND_single_line s g Hg) as [Hl _]. unfold trim.
    split; [apply trimEnd_head; apply trimStart_head |].
    split; [apply trimEnd_last |].
    apply trimEnd_single_line. by apply trimStart_single_line.
Qed.

Lemma marker_name_is_trimmed_witness :
  ∃ r, interpret (Some padded_marker_response) = Some r ∧
       viruses r = [JStr "Win.Test.EICAR_HDB-1"].
Proof.
  destruct (marker_name_is_trimmed padded_marker_response
              "scan.log: FOUND:    Win.Test.EICAR_HDB-1   "
              "Win.Test.EICAR_HDB-1   ")
    as (r & Hr & Hv & _); try reflexivity.
  - discriminate.
  - eexists. split; [reflexivity |]. left. reflexivity.
  - exists r. split; [exact Hr | exact Hv].
Defined.

End MarkerNames.

(* ===================================================================== *)
(** ** The feature flag and the upload route *)
(* ===================================================================== *)

Section FeatureFlag.

Import Server.

Ltac letter_cases :=
  intros [[] [] [] [] [] [] [] []]; unfold is_letter; vm_compute;
  (split; intros H;
   first [reflexivity | by left | by right | discriminate H
         | destruct H as [H | H]; discriminate H]).

Lemma lower_unit_f : ∀ c, String (lower_unit c) "" = "f" ↔ is_letter c "f" "F".
Proof. letter_cases. Qed.

Lemma lower_unit_a : ∀ c, String (lower_unit c) "" = "a" ↔ is_letter c "a" "A".
Proof. letter_cases. Qed.

Lemma lower_unit_l : ∀ c, String (lower_unit c) "" = "l" ↔ is_letter c "l" "L".
Proof. letter_cases. Qed.

Lemma lower_unit_s : ∀ c, String (lower_unit c) "" = "s" ↔ is_letter c "s" "S".
Proof. letter_cases. Qed.

Lemma lower_unit_e : ∀ c, String (lower_unit c) "" = "e" ↔ is_letter c "e" "E".
Proof. letter_cases. Qed.

Lemma toLowerCase_false v : toLowerCase v = "false" ↔ is_word_false v.
Proof.
  unfold is_word_false. split.
  - destruct v as [|c1 [|c2 [|c3 [|c4 [|c5 [|c6 v]]]]]]; simpl;
      try discriminate.
    intros [= H1 H2 H3 H4 H5].
    exists c1, c2, c3, c4, c5. split; [done |].
    rewrite <- lower_unit_f, <- lower_unit_a, <- lower_unit_l,
      <- lower_unit_s, <- lower_unit_e. rewrite H1, H2, H3, H4, H5. done.
  - intros (c1 & c2 & c3 & c4 & c5 & -> & H1 & H2 & H3 & H4 & H5). simpl.
    apply lower_unit_f in H1. apply lower_unit_a in H2.
    apply lower_unit_l in H3. apply lower_unit_s in H4.
    apply lower_unit_e in H5. congruence.
Qed.

(** X15. Virus scanning is switched off by exactly one setting: the
    variable ENABLE_VIRUS_SCAN holding the word false in any mix of upper
    and lower case. A variable that is not set, the empty string, and any
    other text ("0", "no", "off", "false" with a space) leave scanning
    on. *)
Theorem scanning_off_only_by_false (env : option string) :
  (ENABLE_VIRUS_SCAN env = false ↔ ∃ v, env = Some v ∧ is_word_false v) ∧
  ENABLE_VIRUS_SCAN None = true ∧
  ENABLE_VIRUS_SCAN (Some "") = true ∧
  ENABLE_VIRUS_SCAN (Some "0") = true ∧
  ENABLE_VIRUS_SCAN (Some "no") = true ∧
  ENABLE_VIRUS_SCAN (Some "off") = true ∧
  ENABLE_VIRUS_SCAN (Some "false ") = true ∧
  ENABLE_VIRUS_SCAN (Some "FaLsE") = false.
Proof.
  split; [| repeat split]. unfold ENABLE_VIRUS_SCAN. split.
  - destruct env as [v|]; [| discriminate].
    destruct (truthy (JStr v)); [| discriminate].
    intros H. apply negb_false_iff, String.eqb_eq in H.
    exists v. split; [done |]. by apply toLowerCase_false.
  - intros (v & -> & Hv).
    assert (Hne : truthy (JStr v) = true).
    { destruct Hv as (c1 & c2 & c3 & c4 & c5 & -> & _). reflexivity. }
    rewrite Hne. apply toLowerCase_false in Hv. rewrite Hv. reflexivity.
Qed.

End FeatureFlag.

Section UploadRoute.

Import Server.

Lemma warm_up_fulfilled enabled p init :
  (if enabled && negb (Pool.isReady p) then (initClamScan init p).2
   else Fulfilled tt) = Fulfilled tt.
Proof.
  destruct (enabled && negb (Pool.isReady p)); [| done].
  unfold initClamScan. by destruct (Pool._createConnection init).1.
Qed.

(** The route once a file is there and the warm-up is over. *)
Lemma upload_some enabled p init f scan consume fmt :
  upload enabled p init (Some f) scan consume fmt =
    if (effective_size f =? 0)%Z then
      Answered (plain_answer 400
        "File is empty (0 bytes). Please check your file upload."
        (JStr "File size is 0 bytes") None (Some "validation_failed"))
    else if enabled && (MAX_FILE_SIZE_FOR_SCAN <? effective_size f)%Z then
      Answered (mkAnswer 400 false
        ("File size (" +:+ fmt (effective_size f) +:+
         ") exceeds maximum scannable size of " +:+ fmt MAX_FILE_SIZE_FOR_SCAN)
        (Some (JStr "File too large for virus scanning")) None
        (Some "validation_failed") None None None None (Some (effective_size f)))
    else if enabled then
      match (Retry.scanFile scan (effective_size f) 0).1 with
      | Fulfilled r => Answered (on_scanned r (effective_size f))
      | Rejected e => on_error enabled e
      end
    else
      match consume with
      | Fulfilled _ =>
          Answered (mkAnswer 200 true
            "File processed successfully (virus scanning disabled)"
            None None None (Some (JBool false)) None (Some false)
            (Some "none") (Some (effective_size f)))
      | Rejected e => on_error enabled e
      end.
Proof.
  unfold upload. rewrite warm_up_fulfilled. reflexivity.
Qed.

Lemma on_error_not_ok enabled e a :
  on_error enabled e = Answered a →
  success a = false ∧ status a ≠ 200%Z ∧ stage a ≠ Some "clamav_init_failed".
Proof.
  unfold on_error. destruct (_ || _).
  - intros [= <-]. done.
  - destruct (if is_str "ETIMEDOUT" (err_code e) then _ else _) as [[]|];
      [intros [= <-]; done | intros [= <-]; done | discriminate].
Qed.

(** X16. The route answers 400 without scanning when no file was sent, when
    the file is empty, and, with scanning on, when the file is larger than
    2147483647 bytes: the answer is the same whatever the scanner would
    have said, and it carries no verdict. *)
Theorem upload_refuses_before_scanning (enabled : bool)
  (p : Pool.ClamAVConnectionPool) (init : nat → settled Pool.conn)
  (file : option uploaded) (scan scan' : nat → settled ScanResult)
  (consume : settled unit) (fmt : Z → string) :
  refused_before_scan enabled file →
  upload enabled p init file scan consume fmt =
    upload enabled p init file scan' consume fmt ∧
  ∃ a, upload enabled p init file scan consume fmt = Answered a ∧
       status a = 400%Z ∧ success a = false ∧ infected a = None.
Proof.
  intros [-> | (f & -> & Hf)].
  - split; [reflexivity |]. eexists. split; [reflexivity | done].
  - rewrite !upload_some. destruct Hf as [H0 | [-> Hbig]].
    + rewrite H0. simpl. split; [reflexivity |].
      eexists. split; [reflexivity | done].
    + destruct (effective_size f =? 0)%Z.
      * split; [reflexivity |]. eexists. split; [reflexivity | done].
      * apply Z.ltb_lt in Hbig. rewrite Hbig. simpl.
        split; [reflexivity |]. eexists. split; [reflexivity | done].
Qed.

Lemma upload_refuses_before_scanning_witness :
  ∃ a, upload true Pool.connectionPool never_reachable (Some empty_upload)
         eicar_scan (Fulfilled tt) no_format = Answered a ∧
       status a = 400%Z.
Proof.
  destruct (upload_refuses_before_scanning true Pool.connectionPool
              never_reachable (Some empty_upload) eicar_scan eicar_scan
              (Fulfilled tt) no_format) as (_ & a & Ha & Hs & _).
  - right. exists empty_upload. split; [reflexivity |]. left. reflexivity.
  - exists a. split; [exact Ha | exact Hs].
Defined.

(** X17. The route answers 200, and success = true, only for a non-empty
    file that either was not scanned because scanning is off, or was
    scanned to the end with a verdict that is not infected and without the
    fallback signal; every other answer has success = false. In no case is
    the stage clamav_init_failed: the warm-up never rejects, so the 503
    branch guarding it is never taken. *)
Theorem upload_ok_only_when_clean (enabled : bool)
  (p : Pool.ClamAVConnectionPool) (init : nat → settled Pool.conn)
  (file : option uploaded) (scan : nat → settled ScanResult)
  (consume : settled unit) (fmt : Z → string) (a : answer) :
  upload enabled p init file scan consume fmt = Answered a →
  (success a = true ↔ status a = 200%Z) ∧
  stage a ≠ Some "clamav_init_failed" ∧
  (status a = 200%Z →
     ∃ f, file = Some f ∧ effective_size f ≠ 0%Z ∧
       ((enabled = false ∧ consume = Fulfilled tt) ∨
        (enabled = true ∧ (effective_size f ≤ MAX_FILE_SIZE_FOR_SCAN)%Z ∧
         ∃ fr, (Retry.scanFile scan (effective_size f) 0).1 = Fulfilled fr ∧
               truthy (isInfected (Retry.result fr)) = false ∧
               needsFallback (Retry.result fr) = false))).
Proof.
  destruct file as [f|]; [| intros [= <-]; done].
  rewrite upload_some.
  destruct (effective_size f =? 0)%Z eqn:E0; [intros [= <-]; done |].
  apply Z.eqb_neq in E0.
  destruct enabled; simpl.
  - destruct (MAX_FILE_SIZE_FOR_SCAN <? effective_size f)%Z eqn:Ebig;
      [intros [= <-]; done |].
    apply Z.ltb_ge in Ebig.
    pose proof (scanFile_outcome_from scan (effective_size f) 2 0 eq_refl) as Ho.
    destruct (Retry.scanFile scan (effective_size f) 0).1 as [fr | e] eqn:Hscan.
    + destruct Ho as (k & _ & _ & Hnf & _).
      intros [= <-]. unfold on_scanned. simpl.
      destruct (truthy (isInfected (Retry.result fr))) eqn:Et; simpl.
      * done.
      * split; [done |]. split; [done |]. intros _.
        exists f. split; [done |]. split; [done |]. right.
        split; [done |]. split; [done |]. exists fr.
        split; [exact Hscan |]. split; [exact Et | exact Hnf].
    + intros H. apply on_error_not_ok in H as (Hs & Hst & Hstage).
      rewrite Hs. split; [split; [discriminate | done] |]. done.
  - destruct consume as [[]|e].
    + intros [= <-]. simpl. split; [done |]. split; [done |]. intros _.
      exists f. split; [done |]. split; [done |]. by left.
    + intros H. apply on_error_not_ok in H as (Hs & Hst & Hstage).
      rewrite Hs. split; [split; [discriminate | done] |]. done.
Qed.

Lemma upload_ok_only_when_clean_witness :
  ∃ a, upload true Pool.connectionPool never_reachable (Some one_kilobyte)
         epipe_then_clean (Fulfilled tt) no_format = Answered a ∧
       status a = 200%Z ∧ success a = true.
Proof.
  set (a := on_scanned
              (Retry.mkFileResult
                 (mkScanResult JNull [] "clamdscan (stream)" clean_response false)
                 1024) 1024).
  assert (Ha : upload true Pool.connectionPool never_reachable
                 (Some one_kilobyte) epipe_then_clean (Fulfilled tt) no_format =
               Answered a) by (vm_compute; reflexivity).
  exists a. split; [exact Ha |]. split; [reflexivity |].
  destruct (upload_ok_only_when_clean true Pool.connectionPool never_reachable
              (Some one_kilobyte) epipe_then_clean (Fulfilled tt) no_format a Ha)
    as [Hiff _].
  apply Hiff. reflexivity.
Defined.

End UploadRoute.

Section UploadVerdicts.

Import Server.

(** X18. With scanning on and a file that passes the size checks, a first
    scan whose daemon response is not UNKNOWN COMMAND and carries any of
    the three infection markers is answered 400 with success = false, the
    message "File is infected", infected = true and the non-empty list of
    names that the interpretation gave; no retry is made. *)
Theorem infected_upload_is_refused (p : Pool.ClamAVConnectionPool)
  (init : nat → settled Pool.conn) (f : uploaded)
  (scan : nat → settled ScanResult) (consume : settled unit)
  (fmt : Z → string) (o : response) (r : ScanResult) :
  scannable f →
  not_unknown_command o →
  flag_indicates_infection o ∨ name_field_nonempty o ∨ file_has_marker o →
  interpret (Some o) = Some r →
  scan 0 = Fulfilled r →
  ∃ a, upload true p init (Some f) scan consume fmt = Answered a ∧
       status a = 400%Z ∧ success a = false ∧
       message a = "File is infected" ∧
       infected a = Some (JBool true) ∧
       body_viruses a = Some (viruses r) ∧ viruses r ≠ [] ∧
       (Retry.scanFile scan (effective_size f) 0).2 = [Retry.Scan 0].
Proof.
  intros [Hne Hmax] Hn Hm Hi Hs.
  rewrite (interpret_normal o Hn) in Hi. injection Hi as <-.
  assert (Hinf : infection o = JBool true) by by apply infection_iff.
  assert (Hrs : is_str "UNKNOWN COMMAND" (resultString (raw_after o)) = false).
  { apply is_str_false. unfold raw_after. by destruct (truthy _). }
  rewrite upload_some.
  destruct (effective_size f =? 0)%Z eqn:E0; [by apply Z.eqb_eq in E0 |].
  destruct (MAX_FILE_SIZE_FOR_SCAN <? effective_size f)%Z eqn:Eb;
    [apply Z.ltb_lt in Eb; lia |].
  simpl. rewrite scanFile_step, Hs. unfold Retry.try_scan. simpl.
  rewrite Hrs. simpl. unfold on_scanned. simpl. rewrite Hinf. simpl.
  eexists. split; [reflexivity |]. simpl. repeat (split; [reflexivity |]).
  split; [| reflexivity]. apply final_viruses_nonempty. by rewrite Hinf.
Qed.

Lemma infected_upload_is_refused_witness :
  ∃ a, upload true Pool.connectionPool never_reachable (Some one_kilobyte)
         eicar_scan (Fulfilled tt) no_format = Answered a ∧
       status a = 400%Z ∧
       body_viruses a = Some [JStr "Eicar-Test-Signature"].
Proof.
  destruct (infected_upload_is_refused Pool.connectionPool never_reachable
              one_kilobyte eicar_scan (Fulfilled tt) no_format eicar_response
              (mkScanResult (JBool true) [JStr "Eicar-Test-Signature"]
                 "clamdscan (stream)" eicar_response false))
    as (a & Ha & Hst & _ & _ & _ & Hv & _).
  - split; [discriminate | vm_compute; discriminate].
  - discriminate.
  - left. left. reflexivity.
  - reflexivity.
  - reflexivity.
  - exists a. split; [exact Ha |]. split; [exact Hst | exact Hv].
Defined.

(** X19. With scanning on and a file that passes the size checks, when the
    three scans all fail with EPIPE or ECONNRESET the route answers 503
    with success = false and the stage connection_error, carrying the
    message and the code of the third error, after sleeps of 1000 and
    2000 milliseconds between the scans. *)
Theorem connection_loss_is_503 (p : Pool.ClamAVConnectionPool)
  (init : nat → settled Pool.conn) (f : uploaded)
  (scan : nat → settled ScanResult) (consume : settled unit)
  (fmt : Z → string) :
  scannable f →
  (∀ i, i ≤ 2 → ∃ e, scan i = Rejected e ∧ is_connection_error e = true) →
  ∃ e a, scan 2 = Rejected e ∧
    upload true p init (Some f) scan consume fmt = Answered a ∧
    status a = 503%Z ∧ success a = false ∧
    stage a = Some "connection_error" ∧
    error a = Some (err_message e) ∧ errorCode a = Some (err_code e) ∧
    (Retry.scanFile scan (effective_size f) 0).2 =
      [Retry.Scan 0; Retry.Sleep 1000; Retry.Scan 1; Retry.Sleep 2000;
       Retry.Scan 2].
Proof.
  intros [Hne Hmax] Hall.
  destruct (Hall 2) as (e & He & Hc); [lia |].
  assert (Hrun : Retry.scanFile scan (effective_size f) 0 =
                 (Retry.try_scan (scan 2) (effective_size f), retry_schedule 2)).
  { apply (scanFile_runs_to scan (effective_size f) 2 2 0); try done.
    - intros i Hi. apply Hall. lia.
    - unfold Retry.maxRetries. lia. }
  rewrite He in Hrun. simpl in Hrun.
  exists e. rewrite upload_some.
  destruct (effective_size f =? 0)%Z eqn:E0; [by apply Z.eqb_eq in E0 |].
  destruct (MAX_FILE_SIZE_FOR_SCAN <? effective_size f)%Z eqn:Eb;
    [apply Z.ltb_lt in Eb; lia |].
  simpl. rewrite Hrun. simpl. unfold on_error.
  unfold is_connection_error in Hc. rewrite Hc.
  eexists. split; [exact He |]. split; [reflexivity |]. done.
Qed.

Lemma connection_loss_is_503_witness :
  ∃ a, upload true Pool.connectionPool never_reachable (Some one_kilobyte)
         always_epipe (Fulfilled tt) no_format = Answered a ∧
       status a = 503%Z ∧ error a = Some (JStr "write EPIPE").
Proof.
  destruct (connection_loss_is_503 Pool.connectionPool never_reachable
              one_kilobyte always_epipe (Fulfilled tt) no_format)
    as (e & a & He & Ha & Hst & _ & _ & Herr & _).
  - split; [discriminate | vm_compute; discriminate].
  - intros i _. exists epipe. split; reflexivity.
  - exists a. split; [exact Ha |]. split; [exact Hst |].
    injection He as <-. exact Herr.
Defined.

(** X20. With scanning on and a file that passes the size checks, a first
    scan that fails otherwise than by EPIPE or ECONNRESET is not retried,
    and the route answers with the message of the error: 504 when the code
    is ETIMEDOUT or the message contains "timeout", 500 "Error scanning
    file" otherwise. An UNKNOWN COMMAND result is such a failure: it is
    answered 500 with the UNKNOWN COMMAND message, and so is the rejection
    of acquire() when the queue is full. *)
Theorem scan_failure_status (p : Pool.ClamAVConnectionPool)
  (init : nat → settled Pool.conn) (f : uploaded)
  (scan : nat → settled ScanResult) (consume : settled unit)
  (fmt : Z → string) :
  scannable f →
  (∀ e m, scan 0 = Rejected e → is_connection_error e = false →
     err_message e = JStr m →
     ∃ a, upload true p init (Some f) scan consume fmt = Answered a ∧
       success a = false ∧ error a = Some (JStr m) ∧
       status a = (if is_str "ETIMEDOUT" (err_code e) || includes "timeout" m
                   then 504 else 500)%Z ∧
       (status a = 500%Z → message a = "Error scanning file" ∧
                           stage a = Some "processing_error") ∧
       (Retry.scanFile scan (effective_size f) 0).2 = [Retry.Scan 0]) ∧
  (∀ r, scan 0 = Fulfilled r → needsFallback r = true →
     ∃ a, upload true p init (Some f) scan consume fmt = Answered a ∧
       status a = 500%Z ∧ success a = false ∧
       message a = "Error scanning file" ∧
       error a = Some (JStr Retry.unknown_command_message) ∧
       (Retry.scanFile scan (effective_size f) 0).2 = [Retry.Scan 0]) ∧
  (scan 0 = Rejected (new_Error Pool.queue_full_message) →
     ∃ a, upload true p init (Some f) scan consume fmt = Answered a ∧
       status a = 500%Z ∧
       error a = Some (JStr Pool.queue_full_message)).
Proof.
  intros [Hne Hmax].
  assert (Hup : ∀ e, Retry.try_scan (scan 0) (effective_size f) = Rejected e →
                is_connection_error e = false →
                upload true p init (Some f) scan consume fmt = on_error true e ∧
                (Retry.scanFile scan (effective_size f) 0).2 = [Retry.Scan 0]).
  { intros e Ht Hc. rewrite upload_some.
    destruct (effective_size f =? 0)%Z eqn:E0; [by apply Z.eqb_eq in E0 |].
    destruct (MAX_FILE_SIZE_FOR_SCAN <? effective_size f)%Z eqn:Eb;
      [apply Z.ltb_lt in Eb; lia |].
    simpl. rewrite scanFile_step, Ht.
    destruct (decide _) as [[Hc' _] | _]; [congruence |]. done. }
  assert (Hon : ∀ e m, is_connection_error e = false → err_message e = JStr m →
                ∃ a, on_error true e = Answered a ∧
                  success a = false ∧ error a = Some (JStr m) ∧
                  status a = (if is_str "ETIMEDOUT" (err_code e) || includes "timeout" m
                              then 504 else 500)%Z ∧
                  (status a = 500%Z → message a = "Error scanning file" ∧
                                      stage a = Some "processing_error")).
  { intros e m Hc Hm. unfold on_error. unfold is_connection_error in Hc.
    rewrite Hc, Hm. simpl.
    destruct (is_str "ETIMEDOUT" (err_code e)); simpl.
    - eexists. split; [reflexivity |]. simpl. repeat split; try done.
    - destruct (includes "timeout" m); eexists; (split; [reflexivity |]);
        simpl; repeat split; try done. }
  split; [| split].
  - intros e m Hs Hc Hm.
    destruct (Hup e) as [Hu Htr]; [by rewrite Hs | done |].
    destruct (Hon e m Hc Hm) as (a & Ha & H1 & H2 & H3 & H4).
    exists a. rewrite Hu. done.
  - intros r Hs Hnf.
    destruct (Hup (new_Error Retry.unknown_command_message)) as [Hu Htr].
    { rewrite Hs. unfold Retry.try_scan. by rewrite Hnf. }
    { reflexivity. }
    rewrite Hu, Htr. eexists. split; [reflexivity |]. done.
  - intros Hs.
    destruct (Hup (new_Error Pool.queue_full_message)) as [Hu _].
    { by rewrite Hs. }
    { reflexivity. }
    rewrite Hu. eexists. split; [reflexivity |]. done.
Qed.

Lemma scan_failure_status_witness :
  ∃ a, upload true Pool.connectionPool never_reachable (Some one_kilobyte)
         always_unknown_command (Fulfilled tt) no_format = Answered a ∧
       status a = 500%Z ∧
       error a = Some (JStr Retry.unknown_command_message).
Proof.
  destruct (scan_failure_status Pool.connectionPool never_reachable
              one_kilobyte always_unknown_command (Fulfilled tt) no_format)
    as (_ & Hunk & _).
  - split; [discriminate | vm_compute; discriminate].
  - destruct (Hunk (mkScanResult (JBool false) [] "clamdscan (stream - failed)"
                      unknown_command_response true))
      as (a & Ha & Hst & _ & _ & Herr & _); [reflexivity | reflexivity |].
    exists a. split; [exact Ha |]. split; [exact Hst | exact Herr].
Defined.

End UploadVerdicts.

Section AfterEviction.

Import Pool.

Lemma step_keeps_out c s ev s' effs :
  c ∉ pool (state s) → c ∉ inUse (state s) → ¬ brings_back c ev →
  step s ev = Some (s', effs) →
  (c ∉ pool (state s')) ∧ (c ∉ inUse (state s')) ∧ ∀ w, Resolve w c ∉ effs.
Proof.
  intros Hp Hu Hb Hstep.
  assert (Hres : ∀ w, Resolve w c ∉ effs).
  { intros w Hin.
    destruct (resolve_origin s s' ev effs w c Hstep Hin)
      as [_ [(_ & H & _) | [(-> & _) | (-> & _)]]];
      [done | by apply Hb | by apply Hb]. }
  split; [| split; [| exact Hres]].
  - destruct ev as [w | w c0 | w e | c0 | c0]; simpl in Hstep.
    + injection Hstep as <- _. simpl. unfold acquire.
      destruct (List.find _ _); [done |]. by repeat case_bool_decide.
    + destruct (_ && _); [| discriminate]. injection Hstep as <- _. simpl.
      intros H. apply elem_of_app in H as [H | H]; [done |].
      apply list_elem_of_singleton in H. apply Hb. simpl. done.
    + destruct (bool_decide _); [| discriminate]. by injection Hstep as <- _.
    + injection Hstep as <- _. simpl. unfold release. simpl.
      by destruct (queue _).
    + injection Hstep as <- _. simpl. intros H.
      apply Hp. by eapply remove_first_subset.
  - destruct ev as [w | w c0 | w e | c0 | c0]; simpl in Hstep.
    + injection Hstep as <- <-. simpl. unfold acquire.
      destruct (List.find _ _) as [c1|] eqn:Hf; simpl.
      * apply (find_idle_some (state s) c1) in Hf as [Hin _].
        intros H. apply elem_of_union in H as [H | H]; [| done].
        apply elem_of_singleton in H. by subst.
      * by repeat case_bool_decide.
    + destruct (_ && _); [| discriminate]. injection Hstep as <- _. simpl.
      intros H. apply elem_of_union in H as [H | H]; [| done].
      apply elem_of_singleton in H. apply Hb. simpl. done.
    + destruct (bool_decide _); [| discriminate]. by injection Hstep as <- _.
    + injection Hstep as <- _. simpl. unfold release. simpl.
      assert (Hne : c0 ≠ c) by (intros ->; by apply Hb).
      destruct (queue _); simpl; intros Hin.
      * apply elem_of_difference in Hin as [Hin _]. done.
      * apply elem_of_union in Hin as [Hin | Hin].
        -- apply elem_of_singleton in Hin. done.
        -- apply elem_of_difference in Hin as [Hin _]. done.
    + injection Hstep as <- _. simpl. intros H.
      apply elem_of_difference in H as [H _]. done.
Qed.

(** X21. A connection that is out of the collection and out of the in-use
    set, as removeConnection leaves it, is never handed to a caller again
    and never comes back into the collection, along any run in which its
    creation does not complete anew and no caller that still holds it
    releases it. *)
Theorem evicted_connection_never_returns (c : conn) (evs : list event)
  (s s' : System) (effs : list effect) :
  c ∉ pool (state s) → c ∉ inUse (state s) →
  Forall (λ ev, ¬ brings_back c ev) evs →
  run s evs = Some (s', effs) →
  (c ∉ pool (state s')) ∧ (c ∉ inUse (state s')) ∧ ∀ w, Resolve w c ∉ effs.
Proof.
  revert s s' effs.
  induction evs as [|ev evs IH]; intros s s' effs Hp Hu Hall; simpl.
  - intros [= <- <-]. split; [done |]. split; [done |].
    intros w H. by apply not_elem_of_nil in H.
  - apply Forall_cons in Hall as [Hev Hall].
    destruct (step s ev) as [[s1 effs1]|] eqn:Hstep; [| discriminate].
    destruct (run s1 evs) as [[s2 effs2]|] eqn:Hrun; [| discriminate].
    intros [= <- <-].
    destruct (step_keeps_out c s ev s1 effs1 Hp Hu Hev Hstep) as (Hp1 & Hu1 & Hr1).
    destruct (IH s1 s2 effs2 Hp1 Hu1 Hall Hrun) as (Hp2 & Hu2 & Hr2).
    split; [done |]. split; [done |].
    intros w H. apply elem_of_app in H as [H | H]; [by apply (Hr1 w) | by apply (Hr2 w)].
Qed.

Lemma evicted_connection_never_returns_witness :
  ∃ s' effs,
    run (mkSystem (removeConnection 1 single_busy_pool) [])
        [Acquire 5; Created 5 2; Release 2; Acquire 6] = Some (s', effs) ∧
    effs = [Create 5; Resolve 5 2; Resolve 6 2] ∧
    ∀ w, Resolve w 1 ∉ effs.
Proof.
  eexists _, _. split; [vm_compute; reflexivity |]. split; [reflexivity |].
  eapply (evicted_connection_never_returns 1
            [Acquire 5; Created 5 2; Release 2; Acquire 6]
            (mkSystem (removeConnection 1 single_busy_pool) [])).
  - apply not_elem_of_nil.
  - simpl. intros H. apply elem_of_difference in H as [_ H].
    apply H. by apply elem_of_singleton.
  - repeat (apply Forall_cons; split; [simpl; first [tauto | discriminate] |]).
    apply Forall_nil_2.
  - vm_compute. reflexivity.
Defined.



(** X23. The backoff of a connection creation adds up to
    1500 * k * (k - 1) milliseconds when it ends at its k-th attempt: none
    when the first attempt succeeds, and 135000 ms, two and a quarter
    minutes, before the creation gives up after ten failed attempts. *)
Theorem creation_backoff_total (init : nat → settled conn) :
  ∃ k, 1 ≤ k ≤ 10 ∧
    establishments (_createConnection init).2 = k ∧
    total_sleep (_createConnection init).2 =
      (1500 * Z.of_nat k * (Z.of_nat k - 1))%Z ∧
    (total_sleep (_createConnection init).2 ≤ 135000)%Z ∧
    (∀ c, init 1 = Fulfilled c → total_sleep (_createConnection init).2 = 0%Z) ∧
    (∀ e, (_createConnection init).1 = Threw e →
       total_sleep (_createConnection init).2 = 135000%Z).
Proof.
  assert (Hsum : ∀ n a, total_sleep (schedule_from a (a + n)) =
                 (1500 * Z.of_nat n * (2 * Z.of_nat a + Z.of_nat n - 1))%Z).
  { unfold schedule_from. induction n as [|n IH]; intros a.
    - replace (a + 0 - a) with 0 by lia. simpl. lia.
    - replace (a + S n - a) with (S n) by lia. simpl.
      specialize (IH (S a)).
      replace (S a + n - S a) with n in IH by lia.
      replace (S a + n) with (a + S n) in IH by lia.
      rewrite IH. unfold delay. lia. }
  destruct (createLoop_spec init 9 1) as (k & Hk & Ht & Hrej & Hend);
    [reflexivity | lia |].
  unfold Pool.maxRetries in *. unfold _createConnection.
  assert (Htot : total_sleep (createLoop init 1).2 =
                 (1500 * Z.of_nat k * (Z.of_nat k - 1))%Z).
  { rewrite Ht. replace k with (1 + (k - 1)) at 1 by lia.
    rewrite Hsum. replace (Z.of_nat (k - 1)) with (Z.of_nat k - 1)%Z by lia.
    lia. }
  exists k. split; [lia |]. split.
  { rewrite Ht, establishments_schedule by lia. lia. }
  split; [exact Htot |]. split; [rewrite Htot; nia |]. split.
  - intros c Hc. rewrite Htot.
    destruct (decide (k = 1)) as [-> | Hne]; [lia |].
    destruct (Hrej 1) as (e & He); [lia |]. congruence.
  - intros e He. rewrite Htot.
    destruct Hend as [(c & _ & Hc) | (-> & _)]; [congruence | lia].
Qed.

End AfterEviction.
